(** * Samay sync engine: cursor store, unsynced-event selector, orchestrator

    A shallow embedding of [samay-sync/sync/state_manager.py] and of the
    orchestration part of [samay-sync/sync/sync_manager.py], with the
    properties of the sync specification stated and proved over it.

    Conventions of the embedding.
    - A Python [dict] keyed by bucket id is a [gmap string _]; mutation of
      the [SyncState] object found under a key is an insertion of the
      updated record under that same key.
    - Python exceptions are values of [exn]; a method is a computation in
      the state-and-exception monad [M] over [World].  State changes made
      before an exception is raised persist, as in Python.
    - [datetime.now(timezone.utc).isoformat()] reads the [Clock] of the
      world and advances it.
    - The state file is described by its parsed contents, and the state
      directory is taken to be writable: [rename], [open] and [json.dump]
      succeed, so the [except] branch of [_save_sync_states], which
      re-raises a storage error as [RuntimeError], is not modelled.  Every
      statement below is about a store whose file can be written; none
      speaks of what a failing save leaves behind.
    - Logger calls and the floating point durations of [SyncResult] and
      [SyncStats] are left out. *)

From stdpp Require Import gmap strings list fin_maps pretty sorting.
From Stdlib Require Import ZArith Lia Ascii.

Local Open Scope string_scope.
Local Open Scope list_scope.
Local Open Scope Z_scope.

(** ** Data model *)

(** [SyncState] of state_manager.py. *)
Record SyncState := mkSyncState {
  bucket_id : string;
  last_sync_timestamp : option string;
  last_sync_event_id : option Z;
  total_events_synced : Z;
  last_sync_status : string;
  last_sync_error : option string;
  created_at : string;
  updated_at : string
}.

(** An event dictionary, seen through the keys the code reads.  A field is
    [None] when the key is missing from the dictionary. *)
Record Event := mkEvent {
  ev_id : option Z;
  ev_timestamp : option string;
  ev_duration : option string;
  ev_data : option string
}.

(** The dictionary built for the backend in [_sync_bucket]. *)
Record ApiEvent := mkApiEvent {
  api_id : Z;
  api_timestamp : string;
  api_duration : string;
  api_data : string;
  api_bucket_id : string
}.

(** Contents of a file on disk: a JSON document that parses to a table of
    sync states, or bytes that [json.load] rejects (an empty or truncated
    file). *)
Inductive FileContent :=
  | Json (data : gmap string SyncState)
  | Unparsable.

(** The state file and its [.json.backup] sibling; [None] is a path that
    does not exist. *)
Record FileSystem := mkFileSystem {
  state_file : option FileContent;
  backup_file : option FileContent
}.

(** [SyncStateManager]: the in-memory cache and the files behind it. *)
Record SyncStateManager := mkSyncStateManager {
  _sync_states : gmap string SyncState;
  disk : FileSystem
}.

(** The wall clock: the readings successive calls will observe. *)
Record Clock := mkClock {
  readings : nat -> string;
  ticks : nat
}.

(** What the backend does with one POST. *)
Inductive Response :=
  | Http (status_code : Z) (text : string)
  | NetworkFailure (detail : string).

(** [SyncResult] of sync_manager.py. *)
Record SyncResult := mkSyncResult {
  success : bool;
  events_synced : Z;
  buckets_synced : Z;
  errors : list string;
  timestamp : string
}.

Module SyncStats.
Record t := mk {
  total_syncs : Z;
  successful_syncs : Z;
  failed_syncs : Z;
  total_events_synced : Z;
  last_sync_time : option string
}.
End SyncStats.

(** [APIClient]: the base URL and the bearer token it was built with. *)
Record APIClient := mkAPIClient {
  base_url : string;
  access_token : string
}.

(** The SQLite collaborator.  [db_buckets] and [db_events] are what
    [get_buckets] and [get_events(bucket_id=...)] return on an open
    connection; [None] stands for an [sqlite3.Error], whose text is
    [db_error].  A bucket row is represented by its ['id'] column, the
    only one the orchestrator reads. *)
Record Database := mkDatabase {
  db_reachable : bool;
  connection : bool;
  db_buckets : option (list string);
  db_events : string -> option (list Event);
  db_error : string
}.

(** The OAuth collaborator: the answer of [is_authenticated] and the
    dictionary [token_storage.load_tokens] returns. *)
Record OAuth := mkOAuth {
  is_authenticated : bool;
  load_tokens : option (gmap string string)
}.

Record World := mkWorld {
  sync_state_manager : SyncStateManager;
  clock : Clock;
  db_module : Database;
  oauth_manager : OAuth;
  api_client : option APIClient;
  server_base_url : string;
  backend : list ApiEvent -> Response;
  transmitted : list (list ApiEvent);
  _sync_stats : SyncStats.t
}.

(** ** Exceptions and the monad *)

Inductive exn :=
  | KeyError (key : string)
  | RuntimeError (msg : string)
  | ConnectionError (msg : string)
  | AttributeError (msg : string)
  | Exception (msg : string).

(** [str(e)]. *)
Definition exn_str (e : exn) : string :=
  match e with
  | KeyError key => "'" +:+ key +:+ "'"
  | RuntimeError msg | ConnectionError msg
  | AttributeError msg | Exception msg => msg
  end.

Inductive Result (A : Type) :=
  | Ok (a : A)
  | Raise (e : exn).
Arguments Ok {A} a.
Arguments Raise {A} e.

Definition M (A : Type) : Type := World -> Result A * World.

Definition ret {A} (a : A) : M A := fun w => (Ok a, w).

Definition raise {A} (e : exn) : M A := fun w => (Raise e, w).

Definition bind {A B} (c : M A) (k : A -> M B) : M B :=
  fun w =>
    match c w with
    | (Ok a, w') => k a w'
    | (Raise e, w') => (Raise e, w')
    end.

(** [try: c  except Exception as e: h e]. *)
Definition try_except {A} (c : M A) (h : exn -> M A) : M A :=
  fun w =>
    match c w with
    | (Ok a, w') => (Ok a, w')
    | (Raise e, w') => h e w'
    end.

(** [try: c  finally: f], for a finaliser that does not raise. *)
Definition finally {A} (c : M A) (f : World -> World) : M A :=
  fun w => let '(r, w') := c w in (r, f w').

Definition get_world : M World := fun w => (Ok w, w).
Definition modify (f : World -> World) : M unit := fun w => (Ok tt, f w).

Notation "x <- c ;; k" := (bind c (fun x => k))
  (at level 100, c at next level, right associativity).
Notation "c ;;; k" := (bind c (fun _ => k))
  (at level 100, right associativity).

(** The world a computation leaves behind, and its outcome. *)
Definition exec {A} (c : M A) (w : World) : World := (c w).2.
Definition outcome {A} (c : M A) (w : World) : Result A := (c w).1.

(** ** Field updates *)

Definition set_manager (m : SyncStateManager) (w : World) : World :=
  mkWorld m (clock w) (db_module w) (oauth_manager w) (api_client w)
          (server_base_url w) (backend w) (transmitted w) (_sync_stats w).

Definition set_clock (c : Clock) (w : World) : World :=
  mkWorld (sync_state_manager w) c (db_module w) (oauth_manager w)
          (api_client w) (server_base_url w) (backend w) (transmitted w)
          (_sync_stats w).

Definition set_db (d : Database) (w : World) : World :=
  mkWorld (sync_state_manager w) (clock w) d (oauth_manager w)
          (api_client w) (server_base_url w) (backend w) (transmitted w)
          (_sync_stats w).

Definition set_api_client (c : option APIClient) (w : World) : World :=
  mkWorld (sync_state_manager w) (clock w) (db_module w) (oauth_manager w)
          c (server_base_url w) (backend w) (transmitted w) (_sync_stats w).

Definition set_transmitted (t : list (list ApiEvent)) (w : World) : World :=
  mkWorld (sync_state_manager w) (clock w) (db_module w) (oauth_manager w)
          (api_client w) (server_base_url w) (backend w) t (_sync_stats w).

Definition set_stats (s : SyncStats.t) (w : World) : World :=
  mkWorld (sync_state_manager w) (clock w) (db_module w) (oauth_manager w)
          (api_client w) (server_base_url w) (backend w) (transmitted w) s.

(** [datetime.now(timezone.utc).isoformat()]. *)
Definition utc_now_iso : M string :=
  fun w =>
    let c := clock w in
    (Ok (readings c (ticks c)), set_clock (mkClock (readings c) (S (ticks c))) w).

(** ** Cursor store: state_manager.py *)

Definition states (w : World) : gmap string SyncState :=
  _sync_states (sync_state_manager w).

(** The cursor of one bucket, if the store has one. *)
Definition cursor (b : string) (w : World) : option SyncState :=
  states w !! b.

Definition set_states (f : gmap string SyncState -> gmap string SyncState)
    (w : World) : World :=
  let m := sync_state_manager w in
  set_manager (mkSyncStateManager (f (_sync_states m)) (disk m)) w.

(** The file-system calls [_save_sync_states] makes, one after the other:
    [Path.rename] onto the backup path (POSIX semantics: an older backup is
    replaced), [open(path, 'w')], which creates the file empty, and
    [json.dump] up to the closing of the file.  A dump cut short leaves a
    truncated document, which is [Unparsable] like the empty file. *)
Inductive FsOp :=
  | RenameToBackup
  | OpenForWrite
  | Dump (data : gmap string SyncState).

Definition apply_op (op : FsOp) (fs : FileSystem) : FileSystem :=
  match op with
  | RenameToBackup => mkFileSystem None (state_file fs)
  | OpenForWrite => mkFileSystem (Some Unparsable) (backup_file fs)
  | Dump data => mkFileSystem (Some (Json data)) (backup_file fs)
  end.

Definition run_steps (ops : list FsOp) (fs : FileSystem) : FileSystem :=
  foldl (fun fs op => apply_op op fs) fs ops.

Definition save_steps (m : SyncStateManager) : list FsOp :=
  let data := _sync_states m in
  (match state_file (disk m) with
   | Some _ => [RenameToBackup]
   | None => []
   end) ++ [OpenForWrite; Dump data].

(** [_save_sync_states] on a writable state directory (see the
    conventions at the top): the three calls run to their end. *)
Definition _save_sync_states : M unit :=
  modify (fun w =>
    let m := sync_state_manager w in
    set_manager
      (mkSyncStateManager (_sync_states m) (run_steps (save_steps m) (disk m)))
      w).

(** [_load_sync_states]: a missing file, or one that does not parse, gives
    the empty table. *)
Definition _load_sync_states (fs : FileSystem) : gmap string SyncState :=
  match state_file fs with
  | Some (Json data) => data
  | Some Unparsable => ∅
  | None => ∅
  end.

(** [SyncStateManager.__init__]. *)
Definition SyncStateManager_init (fs : FileSystem) : SyncStateManager :=
  mkSyncStateManager (_load_sync_states fs) fs.

Definition get_sync_state (b : string) : M (option SyncState) :=
  w <- get_world ;; ret (states w !! b).

Definition create_sync_state (b : string) : M SyncState :=
  now <- utc_now_iso ;;
  let sync_state := mkSyncState b None None 0 "never" None now now in
  modify (set_states (fun d => <[b := sync_state]> d)) ;;;
  _save_sync_states ;;;
  ret sync_state.

Definition get_or_create_sync_state (b : string) : M SyncState :=
  sync_state <- get_sync_state b ;;
  match sync_state with
  | None => create_sync_state b
  | Some s => ret s
  end.

Definition update_sync_success (b : string) (last_event_timestamp : string)
    (last_event_id : Z) (n : Z) : M unit :=
  s <- get_or_create_sync_state b ;;
  now <- utc_now_iso ;;
  let s' := mkSyncState (bucket_id s) (Some last_event_timestamp)
              (Some last_event_id) (total_events_synced s + n) "success" None
              (created_at s) now in
  modify (set_states (fun d => <[b := s']> d)) ;;;
  _save_sync_states.

Definition update_sync_failure (b : string) (error_message : string)
    (n : Z) : M unit :=
  s <- get_or_create_sync_state b ;;
  now <- utc_now_iso ;;
  let s' :=
    if 0 <? n
    then mkSyncState (bucket_id s) (last_sync_timestamp s)
           (last_sync_event_id s) (total_events_synced s + n) "partial"
           (Some error_message) (created_at s) now
    else mkSyncState (bucket_id s) (last_sync_timestamp s)
           (last_sync_event_id s) (total_events_synced s) "failed"
           (Some error_message) (created_at s) now in
  modify (set_states (fun d => <[b := s']> d)) ;;;
  _save_sync_states.

(** [event.get('id', 0)]. *)
Definition event_get_id (event : Event) : Z := default 0 (ev_id event).

(** The loop of [get_events_since_last_sync]. *)
Definition collect_unsynced (last : Z) (all_events : list Event) : list Event :=
  foldl (fun unsynced_events event =>
           if last <? event_get_id event
           then unsynced_events ++ [event]
           else unsynced_events)
        [] all_events.

Definition get_events_since_last_sync (b : string) (all_events : list Event)
    : M (list Event) :=
  s <- get_or_create_sync_state b ;;
  match last_sync_event_id s with
  | None => ret all_events
  | Some last => ret (collect_unsynced last all_events)
  end.

Definition reset_sync_state (b : string) : M unit :=
  w <- get_world ;;
  match states w !! b with
  | Some _ => modify (set_states (fun d => delete b d)) ;;; _save_sync_states
  | None => ret tt
  end.

(** ** Collaborators: database_module.py and [APIClient] *)

Definition set_connection (c : bool) (w : World) : World :=
  let d := db_module w in
  set_db (mkDatabase (db_reachable d) c (db_buckets d) (db_events d)
                     (db_error d)) w.

(** [DatabaseModule.connect]. *)
Definition connect : M unit :=
  w <- get_world ;;
  if db_reachable (db_module w)
  then modify (set_connection true)
  else raise (ConnectionError ("Failed to connect to database: "
                               +:+ db_error (db_module w))).

(** [DatabaseModule.disconnect]. *)
Definition disconnect (w : World) : World := set_connection false w.

(** [with self.db_module: body]. *)
Definition with_db {A} (body : M A) : M A :=
  connect ;;; finally body disconnect.

Definition get_buckets : M (list string) :=
  w <- get_world ;;
  if connection (db_module w)
  then match db_buckets (db_module w) with
       | Some buckets => ret buckets
       | None => raise (RuntimeError ("Error getting buckets: "
                                      +:+ db_error (db_module w)))
       end
  else raise (RuntimeError "Database not connected. Call connect() first.").

Definition get_events (b : string) : M (list Event) :=
  w <- get_world ;;
  if connection (db_module w)
  then match db_events (db_module w) b with
       | Some events => ret events
       | None => raise (RuntimeError ("Error getting events: "
                                      +:+ db_error (db_module w)))
       end
  else raise (RuntimeError "Database not connected. Call connect() first.").

(** [APIClient.send_events]: one POST, its outcome classified.  The
    payload is stamped with the current time, so the clock is read once;
    every attempted batch is recorded in [transmitted]. *)
Definition classify (r : Response) : bool * string :=
  match r with
  | Http status_code text =>
      if status_code =? 200 then (true, "Events sent successfully")
      else if status_code =? 401
      then (false, "Authentication failed - token expired")
      else if status_code =? 429
      then (false, "Rate limited - too many requests")
      else (false, "API error: " +:+ pretty status_code +:+ " - " +:+ text)
  | NetworkFailure detail => (false, "Network error: " +:+ detail)
  end.

Definition send_events (events : list ApiEvent) : M (bool * string) :=
  w <- get_world ;;
  payload_timestamp <- utc_now_iso ;;
  modify (set_transmitted (transmitted w ++ [events])) ;;;
  ret (classify (backend w events)).

(** [base_url.rstrip('/')]. *)
Fixpoint rstrip_slash (s : string) : string :=
  match s with
  | EmptyString => EmptyString
  | String c s' =>
      match rstrip_slash s' with
      | EmptyString => if Ascii.eqb c "/"%char then EmptyString else String c EmptyString
      | r => String c r
      end
  end.

(** ** Orchestrator: sync_manager.py *)

Definition _ensure_authenticated : M bool :=
  w <- get_world ;;
  if negb (is_authenticated (oauth_manager w)) then ret false
  else
    match api_client w with
    | None =>
        match load_tokens (oauth_manager w) with
        | Some tokens =>
            match tokens !! "access_token" with
            | Some token =>
                modify (set_api_client
                          (Some (mkAPIClient (rstrip_slash (server_base_url w))
                                             token))) ;;;
                ret true
            | None => ret false
            end
        | None => ret false
        end
    | Some _ => ret false
    end.

(** [d[key]] on a dictionary that may lack the key. *)
Definition subscript {A} (key : string) (v : option A) : M A :=
  match v with
  | Some a => ret a
  | None => raise (KeyError key)
  end.

(** The loop of [_sync_bucket] that builds [events_to_send]. *)
Fixpoint prepare_events (b : string) (unsynced_events : list Event)
    (events_to_send : list ApiEvent) : M (list ApiEvent) :=
  match unsynced_events with
  | [] => ret events_to_send
  | event :: rest =>
      i <- subscript "id" (ev_id event) ;;
      t <- subscript "timestamp" (ev_timestamp event) ;;
      d <- subscript "duration" (ev_duration event) ;;
      p <- subscript "data" (ev_data event) ;;
      prepare_events b rest (events_to_send ++ [mkApiEvent i t d p b])
  end.

Definition _sync_bucket (b : string) : M Z :=
  unsynced_events <-
    with_db (all_events <- get_events b ;;
             get_events_since_last_sync b all_events) ;;
  match unsynced_events with
  | [] => ret 0
  | _ :: _ =>
      events_to_send <- prepare_events b unsynced_events [] ;;
      w <- get_world ;;
      match api_client w with
      | None =>
          raise (AttributeError
                   "'NoneType' object has no attribute 'send_events'")
      | Some _ =>
          r <- send_events events_to_send ;;
          if r.1 then
            last_event_timestamp <-
              subscript "timestamp" (last unsynced_events ≫= ev_timestamp) ;;
            last_event_id <-
              subscript "id" (last unsynced_events ≫= ev_id) ;;
            update_sync_success b last_event_timestamp last_event_id
              (Z.of_nat (length unsynced_events)) ;;;
            ret (Z.of_nat (length unsynced_events))
          else
            update_sync_failure b r.2 0 ;;;
            raise (Exception ("Failed to send events: " +:+ r.2))
      end
  end.

Definition _update_sync_stats (ok : bool) (n : Z) : M unit :=
  w <- get_world ;;
  let s := _sync_stats w in
  now <- utc_now_iso ;;
  modify (set_stats
    (if ok
     then SyncStats.mk (SyncStats.total_syncs s + 1)
            (SyncStats.successful_syncs s + 1) (SyncStats.failed_syncs s)
            (SyncStats.total_events_synced s + n) (Some now)
     else SyncStats.mk (SyncStats.total_syncs s + 1)
            (SyncStats.successful_syncs s) (SyncStats.failed_syncs s + 1)
            (SyncStats.total_events_synced s) (Some now))).

(** The accumulators of one pass: [errors], [total_events_synced] and
    [buckets_synced]. *)
Record Pass := mkPass {
  pass_errors : list string;
  pass_events : Z;
  pass_buckets : Z
}.

Definition bucket_error (b : string) (e : exn) : string :=
  "Failed to sync bucket " +:+ b +:+ ": " +:+ exn_str e.

(** The [for bucket in buckets] loop of [sync_all_buckets], with its inner
    [try]/[except]. *)
Fixpoint sync_buckets (buckets : list string) (acc : Pass) : M Pass :=
  match buckets with
  | [] => ret acc
  | b :: rest =>
      acc' <-
        try_except
          (n <- _sync_bucket b ;;
           ret (mkPass (pass_errors acc) (pass_events acc + n)
                       (pass_buckets acc + 1)))
          (fun e =>
             ret (mkPass (pass_errors acc ++ [bucket_error b e])
                         (pass_events acc) (pass_buckets acc))) ;;
      sync_buckets rest acc'
  end.

(** [sync_all_buckets].  The list [errors] is still empty wherever an
    exception can reach the outer handler: connecting and [get_buckets]
    come before the loop, and the loop body catches what it raises. *)
Definition sync_all_buckets : M SyncResult :=
  try_except
    (authenticated <- _ensure_authenticated ;;
     if negb authenticated then
       now <- utc_now_iso ;;
       ret (mkSyncResult false 0 0 ["Authentication required"] now)
     else
       acc <- with_db (buckets <- get_buckets ;;
                       sync_buckets buckets (mkPass [] 0 0)) ;;
       let ok := bool_decide (length (pass_errors acc) = 0%nat) in
       _update_sync_stats ok (pass_events acc) ;;;
       now <- utc_now_iso ;;
       ret (mkSyncResult ok (pass_events acc) (pass_buckets acc)
                         (pass_errors acc) now))
    (fun e =>
       now <- utc_now_iso ;;
       ret (mkSyncResult false 0 0
              ["Synchronization failed: " +:+ exn_str e] now)).

(** ** Sample worlds *)

Definition sample_clock : Clock :=
  mkClock (fun _ => "2025-08-22T12:00:00+00:00") 0.

Definition sample_event (i : Z) : Event :=
  mkEvent (Some i) (Some "2025-08-22T11:59:00+00:00") (Some "1.5")
          (Some "{}").

(** Two buckets; the backend rejects every batch of bucket [afk]. *)
Definition sample_db : Database :=
  mkDatabase true false (Some ["afk"; "window"])
    (fun b =>
       if String.eqb b "afk" then Some [sample_event 1; sample_event 2]
       else if String.eqb b "window"
       then Some [sample_event 1; sample_event 2; sample_event 3]
       else Some [])
    "unable to open database file".

Definition sample_backend (events : list ApiEvent) : Response :=
  match events with
  | e :: _ =>
      if String.eqb (api_bucket_id e) "afk"
      then Http 422 "rejected"
      else Http 200 "ok"
  | [] => Http 200 "ok"
  end.

Definition sample_oauth : OAuth :=
  mkOAuth true (Some {[ "access_token" := "secret" ]}).

Definition fresh_world : World :=
  mkWorld (SyncStateManager_init (mkFileSystem None None)) sample_clock
          sample_db sample_oauth None "https://api.example.org/"
          sample_backend [] (SyncStats.mk 0 0 0 0 None).

(** The same machine with nobody logged in. *)
Definition logged_out_world : World :=
  mkWorld (sync_state_manager fresh_world) sample_clock sample_db
          (mkOAuth false None) None "https://api.example.org/"
          sample_backend [] (SyncStats.mk 0 0 0 0 None).

(** The world after one full pass over [fresh_world]: bucket [window] is
    synced up to event 3, bucket [afk] has a failed attempt on record. *)
Definition synced_world : World := exec sync_all_buckets fresh_world.

(** An event dictionary without an ['id'] key. *)
Definition anonymous_event : Event :=
  mkEvent None (Some "2025-08-22T11:58:00+00:00") (Some "0.5") (Some "{}").

(** ** Notions used in the statements *)

(** [last_sync_event_id] of a bucket, unset when the bucket has no cursor
    or has one that never saw a successful sync. *)
Definition last_synced (b : string) (w : World) : option Z :=
  cursor b w ≫= last_sync_event_id.

(** The events a cursor position leaves to be sent, as a filter. *)
Definition events_after (last : option Z) (all_events : list Event)
    : list Event :=
  match last with
  | None => all_events
  | Some k => filter (fun e => k < event_get_id e) all_events
  end.

(** The cursor [create_sync_state] makes at time [now]. *)
Definition never_cursor (b now : string) : SyncState :=
  mkSyncState b None None 0 "never" None now now.

(** [total_events_synced] of a bucket; a bucket without a cursor has
    synced nothing. *)
Definition total_synced (b : string) (w : World) : Z :=
  default 0 (total_events_synced <$> cursor b w).

(** The reading the next [datetime.now] call will see. *)
Definition now (w : World) : string := readings (clock w) (ticks (clock w)).

(** The object [get_or_create_sync_state] hands out. *)
Definition cursor_or_new (b : string) (w : World) : SyncState :=
  default (never_cursor b (now w)) (cursor b w).

(** The collaborators of the cursor store: the contents of the database,
    the OAuth state, the API client, the backend, the batches sent and the
    statistics.  The connection flag of the database is not part of it and
    is stated apart where it matters. *)
Definition collaborators_eq (w w' : World) : Prop :=
  db_reachable (db_module w) = db_reachable (db_module w')
  ∧ db_buckets (db_module w) = db_buckets (db_module w')
  ∧ db_events (db_module w) = db_events (db_module w')
  ∧ oauth_manager w = oauth_manager w'
  ∧ api_client w = api_client w'
  ∧ server_base_url w = server_base_url w'
  ∧ backend w = backend w'
  ∧ transmitted w = transmitted w'
  ∧ _sync_stats w = _sync_stats w'.

(** The input of the selector is in ascending order of id. *)
Fixpoint ascending_by_id (events : list Event) : bool :=
  match events with
  | [] => true
  | e :: rest =>
      match rest with
      | [] => true
      | e' :: _ => (event_get_id e <=? event_get_id e') && ascending_by_id rest
      end
  end.

(** The two stages of [_sync_bucket], named for the proofs: reading the
    unsynced events under the database connection, and sending a
    non-empty batch. *)
Definition fetch_unsynced (b : string) : M (list Event) :=
  with_db (all_events <- get_events b ;;
           get_events_since_last_sync b all_events).

Definition transmit_unsynced (b : string) (unsynced_events : list Event)
    : M Z :=
  events_to_send <- prepare_events b unsynced_events [] ;;
  w <- get_world ;;
  match api_client w with
  | None =>
      raise (AttributeError
               "'NoneType' object has no attribute 'send_events'")
  | Some _ =>
      r <- send_events events_to_send ;;
      if r.1 then
        last_event_timestamp <-
          subscript "timestamp" (last unsynced_events ≫= ev_timestamp) ;;
        last_event_id <-
          subscript "id" (last unsynced_events ≫= ev_id) ;;
        update_sync_success b last_event_timestamp last_event_id
          (Z.of_nat (length unsynced_events)) ;;;
        ret (Z.of_nat (length unsynced_events))
      else
        update_sync_failure b r.2 0 ;;;
        raise (Exception ("Failed to send events: " +:+ r.2))
  end.

(** An event and the dictionary sent for it. *)
Definition sent_as (b : string) (e : Event) (a : ApiEvent) : Prop :=
  ev_id e = Some (api_id a)
  ∧ ev_timestamp e = Some (api_timestamp a)
  ∧ ev_duration e = Some (api_duration a)
  ∧ ev_data e = Some (api_data a)
  ∧ api_bucket_id a = b.

(** One recording call on a bucket, and a sequence of them. *)
Inductive StoreCall :=
  | RecordSuccess (last_event_timestamp : string) (last_event_id : Z)
                  (events_synced : Z)
  | RecordFailure (error_message : string) (events_synced : Z).

Definition call (b : string) (c : StoreCall) : M unit :=
  match c with
  | RecordSuccess ts k n => update_sync_success b ts k n
  | RecordFailure msg n => update_sync_failure b msg n
  end.

Fixpoint calls (b : string) (cs : list StoreCall) : M unit :=
  match cs with
  | [] => ret tt
  | c :: rest => call b c ;;; calls b rest
  end.

(** Order on cursor positions: an unset position is below every id. *)
Definition id_le (x y : option Z) : Prop :=
  match x, y with
  | None, _ => True
  | Some _, None => False
  | Some i, Some j => i ≤ j
  end.

(** Monotonicity for every sequence of recording calls, as the
    specification words it. *)
Definition never_decreases : Prop :=
  ∀ (b : string) (cs1 cs2 : list StoreCall) (w : World),
    total_synced b (exec (calls b cs1) w)
    ≤ total_synced b (exec (calls b (cs1 ++ cs2)) w)
    ∧ id_le (last_synced b (exec (calls b cs1) w))
            (last_synced b (exec (calls b (cs1 ++ cs2)) w)).

(** What callers have to respect for it: every success is recorded with an
    id not below the position reached so far and with a count that is not
    negative. *)
Fixpoint disciplined (position : option Z) (cs : list StoreCall) : Prop :=
  match cs with
  | [] => True
  | RecordSuccess _ k n :: rest =>
      id_le position (Some k) ∧ 0 ≤ n ∧ disciplined (Some k) rest
  | RecordFailure _ _ :: rest => disciplined position rest
  end.

(** Worlds the cursor store can be in: it starts with no cursor and is
    changed by its own methods only. *)
Inductive reachable : World → Prop :=
  | reach_empty w : states w = ∅ → reachable w
  | reach_create b w :
      reachable w → reachable (exec (create_sync_state b) w)
  | reach_get_or_create b w :
      reachable w → reachable (exec (get_or_create_sync_state b) w)
  | reach_success b ts k n w :
      reachable w → reachable (exec (update_sync_success b ts k n) w)
  | reach_failure b msg n w :
      reachable w → reachable (exec (update_sync_failure b msg n) w)
  | reach_select b all_events w :
      reachable w →
      reachable (exec (get_events_since_last_sync b all_events) w)
  | reach_reset b w :
      reachable w → reachable (exec (reset_sync_state b) w).

(** The status is ['never'] exactly when no event id is recorded, as the
    specification words it. *)
Definition never_iff_unset : Prop :=
  ∀ (w : World) (b : string) (s : SyncState),
    reachable w → cursor b w = Some s →
    (last_sync_status s = "never" ↔ last_sync_event_id s = None).

(** The direction that holds of every cursor of a world. *)
Definition never_implies_unset (w : World) : Prop :=
  ∀ (b : string) (s : SyncState),
    cursor b w = Some s →
    last_sync_status s = "never" → last_sync_event_id s = None.

(** The selector leaves the cursor store as it found it, as the
    specification words it. *)
Definition selector_is_pure : Prop :=
  ∀ (b : string) (all_events : list Event) (w : World),
    sync_state_manager (exec (get_events_since_last_sync b all_events) w)
    = sync_state_manager w.

(** The disk when [_save_sync_states] is interrupted after [k] of its
    file-system calls. *)
Definition interrupted_save (k : nat) (m : SyncStateManager) : FileSystem :=
  run_steps (take k (save_steps m)) (disk m).

(** Crash safety as the specification words it: whenever the save is
    interrupted, a later start reads the old table or the new one. *)
Definition crash_safe : Prop :=
  ∀ (k : nat) (m : SyncStateManager),
    _load_sync_states (interrupted_save k m) = _load_sync_states (disk m)
    ∨ _load_sync_states (interrupted_save k m) = _sync_states m.

(** No valid bearer token: the OAuth manager says so, or the token
    storage has no access token to hand out. *)
Definition token_unavailable (w : World) : Prop :=
  is_authenticated (oauth_manager w) = false
  ∨ load_tokens (oauth_manager w) ≫= (fun tokens => tokens !! "access_token")
    = None.

(** The world after one reading of the clock and nothing else. *)
Definition tick (w : World) : World :=
  set_clock (mkClock (readings (clock w)) (S (ticks (clock w)))) w.

(** The buckets of a list whose [_sync_bucket] call raises when the list
    is processed in order from [w], each with what it raised. *)
Fixpoint failed_buckets (buckets : list string) (w : World)
    : list (string * exn) :=
  match buckets with
  | [] => []
  | b :: rest =>
      match _sync_bucket b w with
      | (Ok _, w') => failed_buckets rest w'
      | (Raise e, w') => (b, e) :: failed_buckets rest w'
      end
  end.

(** The state file holds the table the manager has in memory: a manager
    started on this disk would load the same cursors. *)
Definition persisted (w : World) : Prop :=
  _load_sync_states (disk (sync_state_manager w)) = states w.


(** An event dictionary that has the four keys [_sync_bucket] reads. *)
Definition complete (e : Event) : Prop :=
  is_Some (ev_id e) ∧ is_Some (ev_timestamp e)
  ∧ is_Some (ev_duration e) ∧ is_Some (ev_data e).

(** What syncing a bucket leaves alone: the API client, the OAuth state,
    the backend, the statistics and the contents of the database. *)
Definition services_eq (w w' : World) : Prop :=
  api_client w = api_client w'
  ∧ oauth_manager w = oauth_manager w'
  ∧ server_base_url w = server_base_url w'
  ∧ backend w = backend w'
  ∧ _sync_stats w = _sync_stats w'
  ∧ db_reachable (db_module w) = db_reachable (db_module w')
  ∧ db_buckets (db_module w) = db_buckets (db_module w')
  ∧ db_events (db_module w) = db_events (db_module w').

(** The cursor [update_sync_success] leaves for a bucket whose cursor was
    [s], and the one [update_sync_failure] leaves with nothing synced. *)
Definition success_cursor (s : SyncState) (ts : string) (k n : Z)
    (stamp : string) : SyncState :=
  mkSyncState (bucket_id s) (Some ts) (Some k) (total_events_synced s + n)
    "success" None (created_at s) stamp.

Definition failed_cursor (s : SyncState) (msg stamp : string) : SyncState :=
  mkSyncState (bucket_id s) (last_sync_timestamp s) (last_sync_event_id s)
    (total_events_synced s) "failed" (Some msg) (created_at s) stamp.

(** A logged-in machine whose bucket [window] holds an event dictionary
    without an ['id'] key. *)
Definition incomplete_world : World :=
  mkWorld (sync_state_manager fresh_world) sample_clock
          (mkDatabase true false (Some ["window"])
             (fun _ => Some [sample_event 1; anonymous_event])
             "unable to open database file")
          sample_oauth
          (Some (mkAPIClient "https://api.example.org" "secret"))
          "https://api.example.org/" sample_backend []
          (SyncStats.mk 0 0 0 0 None).

(** The counters of [SyncStats] add up: every pass counted is counted as
    a success or as a failure. *)
Definition stats_consistent (s : SyncStats.t) : Prop :=
  SyncStats.total_syncs s
  = SyncStats.successful_syncs s + SyncStats.failed_syncs s.

(** The world [_ensure_authenticated] leaves when it builds the client. *)
Definition with_client (token : string) (w : World) : World :=
  set_api_client
    (Some (mkAPIClient (rstrip_slash (server_base_url w)) token)) w.

(** The access token the token storage can hand out, if any. *)
Definition stored_access_token (w : World) : option string :=
  load_tokens (oauth_manager w) ≫= (fun tokens => tokens !! "access_token").

(** A logged-in machine whose database file cannot be opened. *)
Definition offline_world : World :=
  mkWorld (sync_state_manager fresh_world) sample_clock
          (mkDatabase false false None (fun _ => None)
             "unable to open database file")
          sample_oauth None "https://api.example.org/" sample_backend []
          (SyncStats.mk 0 0 0 0 None).

(** A logged-in machine whose database hands out the events of bucket
    [window] newest first. *)
Definition newest_first_world : World :=
  mkWorld (sync_state_manager fresh_world) sample_clock
          (mkDatabase true false (Some ["window"])
             (fun _ => Some [sample_event 3; sample_event 2; sample_event 1])
             "unable to open database file")
          sample_oauth
          (Some (mkAPIClient "https://api.example.org" "secret"))
          "https://api.example.org/" sample_backend []
          (SyncStats.mk 0 0 0 0 None).

(** ** [get_sync_summary] of state_manager.py *)

(** The dictionaries [get_sync_summary] builds: one per bucket, and the
    summary itself. *)
Module Summary.
Record bucket := mkBucket {
  last_sync : option string;
  events_synced : Z;
  status : string;
  last_error : option string
}.
Record t := mk {
  total_buckets : Z;
  buckets : gmap string bucket;
  overall_status : string;
  total_events_synced : Z;
  successful_syncs : Z;
  failed_syncs : Z
}.
End Summary.

(** The variables the loop of [get_sync_summary] updates. *)
Record SummaryLoop := mkSummaryLoop {
  loop_buckets : gmap string Summary.bucket;
  loop_total : Z;
  loop_successful : Z;
  loop_failed : Z
}.

Definition bucket_summary (s : SyncState) : Summary.bucket :=
  Summary.mkBucket (last_sync_timestamp s) (total_events_synced s)
                   (last_sync_status s) (last_sync_error s).

(** One round of the loop over [self._sync_states.items()]. *)
Definition summary_step (b : string) (s : SyncState) (acc : SummaryLoop)
    : SummaryLoop :=
  mkSummaryLoop
    (<[b := bucket_summary s]> (loop_buckets acc))
    (loop_total acc + total_events_synced s)
    (if String.eqb (last_sync_status s) "success"
     then loop_successful acc + 1 else loop_successful acc)
    (if String.eqb (last_sync_status s) "success" then loop_failed acc
     else if String.eqb (last_sync_status s) "failed"
          then loop_failed acc + 1 else loop_failed acc).

(** [get_sync_summary].  The loop is a fold over the table; its result
    does not depend on the order in which the buckets are visited. *)
Definition get_sync_summary (m : SyncStateManager) : Summary.t :=
  let acc := map_fold summary_step (mkSummaryLoop ∅ 0 0 0) (_sync_states m) in
  Summary.mk
    (Z.of_nat (size (_sync_states m)))
    (loop_buckets acc)
    (if (loop_failed acc =? 0) && (0 <? loop_successful acc) then "healthy"
     else if (0 <? loop_failed acc) && (0 <? loop_successful acc)
          then "partial"
          else if 0 <? loop_failed acc then "failed" else "never_synced")
    (loop_total acc) (loop_successful acc) (loop_failed acc).

(** Some bucket of the table has the given status. *)
Definition some_bucket_is (st : string) (d : gmap string SyncState) : Prop :=
  ∃ b c, d !! b = Some c ∧ last_sync_status c = st.

(** ** The monad, unfolded *)

Ltac run :=
  unfold outcome, exec, get_events_since_last_sync, update_sync_success,
    update_sync_failure, get_or_create_sync_state, create_sync_state,
    get_sync_state, _save_sync_states, utc_now_iso, bind, ret, raise,
    modify, get_world, try_except, finally;
  simpl.

Lemma get_or_create_existing b s w :
  cursor b w = Some s → get_or_create_sync_state b w = (Ok s, w).
Proof. unfold cursor. intros H. run. by rewrite H. Qed.

Lemma get_or_create_absent b w :
  cursor b w = None →
  ∃ w', get_or_create_sync_state b w
        = (Ok (never_cursor b (now w)), w')
        ∧ cursor b w' = Some (never_cursor b (now w))
        ∧ (∀ b', b' ≠ b → cursor b' w' = cursor b' w)
        ∧ collaborators_eq w w'.
Proof.
  unfold cursor. intros H. run. rewrite H. eexists. split; [reflexivity|].
  unfold states; simpl. split.
  - by rewrite lookup_insert_eq.
  - split; [|by repeat split].
    intros b' Hne. by rewrite lookup_insert_ne.
Qed.

(** ** Unsynced-event selector *)

Lemma collect_unsynced_from last acc (l : list Event) :
  foldl (fun unsynced_events event =>
           if last <? event_get_id event
           then unsynced_events ++ [event]
           else unsynced_events) acc l
  = acc ++ filter (fun e => last < event_get_id e) l.
Proof.
  revert acc. induction l as [|e l IH]; intros acc; simpl.
  - by rewrite app_nil_r.
  - rewrite IH. rewrite filter_cons.
    destruct (Z.ltb_spec last (event_get_id e)) as [Hlt|Hge].
    + rewrite decide_True by done. by rewrite <- app_assoc.
    + rewrite decide_False by lia. done.
Qed.

Lemma collect_unsynced_filter last (l : list Event) :
  collect_unsynced last l = filter (fun e => last < event_get_id e) l.
Proof. unfold collect_unsynced. by rewrite collect_unsynced_from. Qed.

Lemma selector_outcome b all_events w :
  outcome (get_events_since_last_sync b all_events) w
  = Ok (events_after (last_synced b w) all_events).
Proof.
  unfold last_synced, cursor. run.
  destruct (states w !! b) as [s|] eqn:Hs; simpl.
  - destruct (last_sync_event_id s); simpl; [|done].
    by rewrite collect_unsynced_filter.
  - done.
Qed.

(** C1: the selector returns every input event when the bucket's
    [last_sync_event_id] is unset, and otherwise exactly the input events
    whose id is strictly greater than it, in the order of the input.  The
    id of an event is the value under its ['id'] key ([ev_id]); an event
    without the key is compared as id 0. *)
Theorem selector_returns_unsynced (b : string) (all_events : list Event)
    (w : World) :
  ∃ unsynced,
    outcome (get_events_since_last_sync b all_events) w = Ok unsynced
    ∧ unsynced `sublist_of` all_events
    ∧ match last_synced b w with
      | None => unsynced = all_events
      | Some last =>
          unsynced = filter (fun e => last < default 0 (ev_id e)) all_events
          ∧ (∀ e i, ev_id e = Some i →
               (e ∈ unsynced ↔ e ∈ all_events ∧ last < i))
          ∧ (∀ e, ev_id e = None →
               (e ∈ unsynced ↔ e ∈ all_events ∧ last < 0))
      end.
Proof.
  exists (events_after (last_synced b w) all_events).
  split; [apply selector_outcome|].
  destruct (last_synced b w) as [last|]; simpl.
  - split; [apply sublist_filter; apply _|].
    split; [done|].
    split; intros e; [intros i Hi|intros Hi];
      rewrite list_elem_of_filter; unfold event_get_id; rewrite Hi; simpl;
      tauto.
  - done.
Qed.

(** C10: an event dictionary without an ['id'] key counts as id 0 in the
    selector: once the cursor holds a [last_sync_event_id] of 0 or more the
    event is never selected, while on a first sync (no
    [last_sync_event_id]) it is returned with the rest. *)
Theorem selector_event_without_id (b : string) (all_events : list Event)
    (w : World) (event : Event) :
  ev_id event = None →
  event ∈ all_events →
  event_get_id event = 0
  ∧ ∃ unsynced,
      outcome (get_events_since_last_sync b all_events) w = Ok unsynced
      ∧ match last_synced b w with
        | Some last =>
            (0 ≤ last → event ∉ unsynced) ∧ (last < 0 → event ∈ unsynced)
        | None => unsynced = all_events ∧ event ∈ unsynced
        end.
Proof.
  intros Hid Hin.
  assert (Hzero : event_get_id event = 0) by (unfold event_get_id; by rewrite Hid).
  split; [done|].
  exists (events_after (last_synced b w) all_events).
  split; [apply selector_outcome|].
  destruct (last_synced b w) as [last|]; simpl.
  - split.
    + intros Hle Hsel. apply list_elem_of_filter in Hsel as [Hlt _]. lia.
    + intros Hlt. apply list_elem_of_filter. split; [lia|done].
  - done.
Qed.

Lemma selector_event_without_id_witness :
  ev_id anonymous_event = None
  ∧ anonymous_event ∈ [anonymous_event; sample_event 4]
  ∧ last_synced "window" synced_world = Some 3
  ∧ event_get_id anonymous_event = 0
  ∧ ∃ unsynced,
      outcome (get_events_since_last_sync "window"
                 [anonymous_event; sample_event 4]) synced_world
      = Ok unsynced
      ∧ match last_synced "window" synced_world with
        | Some last =>
            (0 ≤ last → anonymous_event ∉ unsynced)
            ∧ (last < 0 → anonymous_event ∈ unsynced)
        | None =>
            unsynced = [anonymous_event; sample_event 4]
            ∧ anonymous_event ∈ unsynced
        end.
Proof.
  split; [reflexivity|].
  split; [apply list_elem_of_here|].
  split; [vm_compute; reflexivity|].
  apply (selector_event_without_id "window"
           [anonymous_event; sample_event 4] synced_world anonymous_event).
  - reflexivity.
  - apply list_elem_of_here.
Defined.

(** ** Recording success and failure *)

Lemma collaborators_eq_refl w : collaborators_eq w w.
Proof. by repeat split. Qed.

Lemma collaborators_eq_trans w1 w2 w3 :
  collaborators_eq w1 w2 → collaborators_eq w2 w3 → collaborators_eq w1 w3.
Proof.
  unfold collaborators_eq. intros (?&?&?&?&?&?&?&?&?) (?&?&?&?&?&?&?&?&?).
  repeat split; congruence.
Qed.

Lemma get_or_create_spec b w :
  ∃ w', get_or_create_sync_state b w = (Ok (cursor_or_new b w), w')
        ∧ cursor b w' = Some (cursor_or_new b w)
        ∧ (∀ b', b' ≠ b → cursor b' w' = cursor b' w)
        ∧ collaborators_eq w w'.
Proof.
  unfold cursor_or_new. destruct (cursor b w) as [s|] eqn:Hs; simpl.
  - exists w. rewrite (get_or_create_existing _ _ _ Hs).
    repeat split; done.
  - by apply get_or_create_absent.
Qed.

Lemma bind_ok {A B} (c : M A) (k : A → M B) w a w' :
  c w = (Ok a, w') → bind c k w = k a w'.
Proof. unfold bind. by intros ->. Qed.

Lemma bind_raise {A B} (c : M A) (k : A → M B) w e w' :
  c w = (Raise e, w') → bind c k w = (Raise e, w').
Proof. unfold bind. by intros ->. Qed.

Lemma update_sync_success_spec b ts k n w :
  let s := cursor_or_new b w in
  ∃ stamp,
    outcome (update_sync_success b ts k n) w = Ok tt
    ∧ cursor b (exec (update_sync_success b ts k n) w)
      = Some (mkSyncState (bucket_id s) (Some ts) (Some k)
                (total_events_synced s + n) "success" None (created_at s)
                stamp)
    ∧ (∀ b', b' ≠ b →
         cursor b' (exec (update_sync_success b ts k n) w) = cursor b' w)
    ∧ collaborators_eq w (exec (update_sync_success b ts k n) w).
Proof.
  intros s. subst s.
  destruct (get_or_create_spec b w) as (w' & Hg & Hc & Ho & Hf).
  unfold outcome, exec, update_sync_success.
  rewrite (bind_ok _ _ _ _ _ Hg). run. eexists. split; [done|].
  unfold cursor, states in *; simpl. split; [by rewrite lookup_insert_eq|].
  split.
  - intros b' Hne. rewrite lookup_insert_ne by done. by apply Ho.
  - unfold collaborators_eq in *. simpl. tauto.
Qed.

Lemma update_sync_failure_spec b msg n w :
  let s := cursor_or_new b w in
  ∃ stamp,
    outcome (update_sync_failure b msg n) w = Ok tt
    ∧ cursor b (exec (update_sync_failure b msg n) w)
      = Some (mkSyncState (bucket_id s) (last_sync_timestamp s)
                (last_sync_event_id s)
                (if 0 <? n then total_events_synced s + n
                 else total_events_synced s)
                (if 0 <? n then "partial" else "failed")
                (Some msg) (created_at s) stamp)
    ∧ (∀ b', b' ≠ b →
         cursor b' (exec (update_sync_failure b msg n) w) = cursor b' w)
    ∧ collaborators_eq w (exec (update_sync_failure b msg n) w).
Proof.
  intros s. subst s.
  destruct (get_or_create_spec b w) as (w' & Hg & Hc & Ho & Hf).
  unfold outcome, exec, update_sync_failure.
  rewrite (bind_ok _ _ _ _ _ Hg). run. eexists. split; [done|].
  unfold cursor, states in *; simpl. split.
  - rewrite lookup_insert_eq. by destruct (0 <? n).
  - split.
    + intros b' Hne. rewrite lookup_insert_ne by done. by apply Ho.
    + unfold collaborators_eq in *. simpl. tauto.
Qed.

Lemma selector_spec b all_events w :
  ∃ w', get_events_since_last_sync b all_events w
        = (Ok (events_after (last_synced b w) all_events), w')
        ∧ cursor b w' = Some (cursor_or_new b w)
        ∧ (∀ b', b' ≠ b → cursor b' w' = cursor b' w)
        ∧ last_synced b w' = last_synced b w
        ∧ collaborators_eq w w'.
Proof.
  destruct (get_or_create_spec b w) as (w' & Hg & Hc & Ho & Hf).
  exists w'. unfold get_events_since_last_sync.
  rewrite (bind_ok _ _ _ _ _ Hg).
  assert (Hl : last_sync_event_id (cursor_or_new b w) = last_synced b w).
  { unfold cursor_or_new, last_synced. by destruct (cursor b w). }
  split.
  - rewrite Hl. destruct (last_synced b w); simpl; [|done].
    by rewrite collect_unsynced_filter.
  - repeat split; try done; try apply Hf.
    unfold last_synced at 1. by rewrite Hc.
Qed.

(** ** Ascending input *)

Lemma ascending_strongly_sorted (l : list Event) :
  ascending_by_id l = true →
  StronglySorted (fun a b => event_get_id a ≤ event_get_id b) l.
Proof.
  intros H. apply Sorted_StronglySorted.
  { intros x y z ??. lia. }
  induction l as [|e l IH]; [constructor|].
  destruct l as [|e' l]; [by repeat constructor|].
  simpl in H. apply andb_prop in H as [Hle Hrest].
  constructor; [by apply IH|]. constructor. lia.
Qed.

Lemma ascending_bound last_id (all_events : list Event) e :
  ascending_by_id all_events = true →
  last (events_after last_id all_events) = Some e →
  Forall (fun e' => event_get_id e' ≤ event_get_id e) all_events.
Proof.
  intros Hasc%ascending_strongly_sorted Hlast.
  assert (∃ l1 l2, all_events = l1 ++ e :: l2
            ∧ Forall (fun z => event_get_id z ≤ event_get_id e) l2)
    as (l1 & l2 & -> & Hl2).
  { destruct last_id as [k|]; simpl in Hlast.
    - assert (He : e ∈ filter (fun e => k < event_get_id e) all_events)
        by (by apply last_Some_elem_of).
      apply list_elem_of_filter in He as [He _].
      apply last_filter_Some in Hlast as (l1 & l2 & -> & Hn).
      exists l1, l2. split; [done|].
      eapply Forall_impl; [exact Hn|]. simpl. intros; lia.
    - apply last_Some in Hlast as [l' ->]. exists l', []. by split. }
  apply Forall_app. split.
  - apply Forall_forall. intros x Hx.
    apply (StronglySorted_app_1_elem_of
             (fun a b : Event => event_get_id a ≤ event_get_id b)
             l1 (e :: l2) x e Hasc Hx).
    apply list_elem_of_here.
  - constructor; [lia|done].
Qed.

Lemma events_after_bound k (all_events : list Event) :
  Forall (fun e' => event_get_id e' ≤ k) all_events →
  events_after (Some k) all_events = [].
Proof.
  simpl. induction 1 as [|e l He _ IH]; [done|].
  rewrite filter_cons. rewrite decide_False by lia. done.
Qed.

(** ** One bucket: [_sync_bucket] *)

Lemma sync_bucket_stages b :
  _sync_bucket b
  = (unsynced_events <- fetch_unsynced b ;;
     match unsynced_events with
     | [] => ret 0
     | _ :: _ => transmit_unsynced b unsynced_events
     end).
Proof. reflexivity. Qed.

Lemma prepare_events_spec b (l : list Event) acc w :
  (∃ batch, prepare_events b l acc w = (Ok (acc ++ batch), w)
            ∧ Forall2 (sent_as b) l batch)
  ∨ (∃ key, prepare_events b l acc w = (Raise (KeyError key), w)).
Proof.
  revert acc. induction l as [|e l IH]; intros acc; simpl.
  - left. exists []. rewrite app_nil_r. by split; [|constructor].
  - destruct e as [[i|] [t|] [d|] [p|]]; simpl;
      try (right; eexists; reflexivity).
    unfold bind at 1 2 3 4. simpl.
    destruct (IH (acc ++ [mkApiEvent i t d p b])) as [(batch & Hb & HF)|[key Hk]].
    + left. exists (mkApiEvent i t d p b :: batch).
      rewrite Hb, <- app_assoc. split; [done|].
      constructor; [by repeat split|done].
    + right. eauto.
Qed.

Lemma fetch_unsynced_spec b w :
  match db_reachable (db_module w), db_events (db_module w) b with
  | false, _ => ∃ e, fetch_unsynced b w = (Raise e, w)
  | true, None => ∃ e, fetch_unsynced b w = (Raise e, set_connection false w)
  | true, Some all_events =>
      ∃ w', fetch_unsynced b w
            = (Ok (events_after (last_synced b w) all_events), w')
            ∧ cursor b w' = Some (cursor_or_new b w)
            ∧ (∀ b', b' ≠ b → cursor b' w' = cursor b' w)
            ∧ last_synced b w' = last_synced b w
            ∧ collaborators_eq w w'
  end.
Proof.
  unfold fetch_unsynced, with_db.
  destruct (db_reachable (db_module w)) eqn:Hr.
  - assert (Hconn : connect w = (Ok tt, set_connection true w)).
    { unfold connect, bind, get_world, modify. by rewrite Hr. }
    rewrite (bind_ok _ _ _ _ _ Hconn). unfold finally.
    destruct (db_events (db_module w) b) as [all_events|] eqn:He.
    + destruct (selector_spec b all_events (set_connection true w))
        as (w' & Hs & Hc & Ho & Hl & Hf).
      assert (Hget : get_events b (set_connection true w)
                     = (Ok all_events, set_connection true w)).
      { unfold get_events, bind, get_world, ret. simpl. by rewrite He. }
      exists (disconnect w'). rewrite (bind_ok _ _ _ _ _ Hget), Hs.
      repeat split; try done; try apply Hf.
    + eexists. unfold get_events, bind, get_world, raise. simpl.
      rewrite He. reflexivity.
  - destruct (db_events (db_module w) b); eexists;
      unfold connect, bind, get_world, raise; rewrite Hr; done.
Qed.

Lemma cursor_or_new_last b w :
  last_sync_event_id (cursor_or_new b w) = last_synced b w.
Proof. unfold cursor_or_new, last_synced. by destruct (cursor b w). Qed.

Lemma cursor_or_new_total b w :
  total_events_synced (cursor_or_new b w) = total_synced b w.
Proof. unfold cursor_or_new, total_synced. by destruct (cursor b w). Qed.

Lemma send_events_spec batch w :
  send_events batch w
  = (Ok (classify (backend w batch)),
     set_transmitted (transmitted w ++ [batch]) (tick w)).
Proof. reflexivity. Qed.

Lemma transmit_unsynced_spec b (unsynced : list Event) w r w' :
  transmit_unsynced b unsynced w = (r, w') →
  (∀ b', b' ≠ b → cursor b' w' = cursor b' w)
  ∧ match r with
    | Ok n =>
        n = Z.of_nat (length unsynced)
        ∧ ∃ batch a,
            Forall2 (sent_as b) unsynced batch
            ∧ transmitted w' = transmitted w ++ [batch]
            ∧ (classify (backend w batch)).1 = true
            ∧ last batch = Some a
            ∧ last_synced b w' = Some (api_id a)
            ∧ total_synced b w' = total_synced b w + n
    | Raise e =>
        last_synced b w' = last_synced b w
        ∧ total_synced b w' = total_synced b w
    end.
Proof.
  unfold transmit_unsynced. intros H.
  destruct (prepare_events_spec b unsynced [] w)
    as [(batch & Hb & HF)|[key Hk]]; simpl in *.
  2:{ rewrite (bind_raise _ _ _ _ _ Hk) in H. by simplify_eq. }
  rewrite (bind_ok _ _ _ _ _ Hb) in H. unfold bind at 1, get_world in H.
  simpl in H.
  destruct (api_client w) as [c|] eqn:Hc;
    [|unfold raise in H; by simplify_eq].
  rewrite (bind_ok _ _ _ _ _ (send_events_spec batch w)) in H.
  set (w1 := set_transmitted (transmitted w ++ [batch]) (tick w)) in *.
  destruct (classify (backend w batch)) as [ok msg] eqn:Hcl. simpl in H.
  destruct ok.
  - pose proof (Forall2_last _ _ _ HF) as Hlast.
    destruct (last unsynced) as [e|] eqn:Hle;
      destruct (last batch) as [a|] eqn:Hla; inversion Hlast as [? ? Hs|];
      subst.
    + destruct Hs as (Hi & Ht & _).
      simpl in H. rewrite Ht, Hi in H.
      unfold bind at 1 2, subscript, ret in H. simpl in H.
      destruct (update_sync_success_spec b (api_timestamp a) (api_id a)
                  (Z.of_nat (length unsynced)) w1)
        as (stamp & Ho & Hcur & Hoth & Hf).
      unfold outcome, exec in *.
      destruct (update_sync_success b (api_timestamp a) (api_id a)
                  (Z.of_nat (length unsynced)) w1) as [r2 w2] eqn:Hu.
      simpl in *. subst r2. unfold bind in H. rewrite Hu in H.
      simplify_eq.
      split; [exact Hoth|]. split; [done|].
      exists batch, a. split; [done|].
      split; [by destruct Hf as (_&_&_&_&_&_&_&<-&_)|].
      split; [by rewrite Hcl|]. split; [done|].
      unfold last_synced, total_synced. rewrite Hcur. simpl.
      split; [done|]. by rewrite (cursor_or_new_total b w1).
    + simpl in H. unfold bind, subscript, raise in H. simpl in H.
      by simplify_eq.
  - destruct (update_sync_failure_spec b msg 0 w1)
      as (stamp & Ho & Hcur & Hoth & Hf).
    unfold outcome, exec in *.
    destruct (update_sync_failure b msg 0 w1) as [r2 w2] eqn:Hu.
    simpl in *. subst r2. unfold bind, raise in H. rewrite Hu in H.
    simplify_eq.
    split; [exact Hoth|].
    unfold last_synced, total_synced. rewrite Hcur. simpl.
    split; [apply (cursor_or_new_last b w1)|apply (cursor_or_new_total b w1)].
Qed.

Lemma sync_bucket_spec b w r w' :
  _sync_bucket b w = (r, w') →
  (∀ b', b' ≠ b → cursor b' w' = cursor b' w)
  ∧ match r with
    | Ok n =>
        ∃ all_events,
          db_events (db_module w) b = Some all_events
          ∧ n = Z.of_nat (length (events_after (last_synced b w) all_events))
          ∧ total_synced b w' = total_synced b w + n
          ∧ match last (events_after (last_synced b w) all_events) with
            | None =>
                last_synced b w' = last_synced b w
                ∧ transmitted w' = transmitted w
            | Some e =>
                ∃ batch a,
                  Forall2 (sent_as b)
                    (events_after (last_synced b w) all_events) batch
                  ∧ transmitted w' = transmitted w ++ [batch]
                  ∧ (classify (backend w batch)).1 = true
                  ∧ last batch = Some a
                  ∧ ev_id e = Some (api_id a)
                  ∧ last_synced b w' = Some (api_id a)
            end
    | Raise e =>
        last_synced b w' = last_synced b w
        ∧ total_synced b w' = total_synced b w
    end.
Proof.
  rewrite sync_bucket_stages. intros H.
  pose proof (fetch_unsynced_spec b w) as Hfetch.
  destruct (db_reachable (db_module w)).
  2:{ destruct Hfetch as [e He]. rewrite (bind_raise _ _ _ _ _ He) in H.
      by simplify_eq. }
  destruct (db_events (db_module w) b) as [all_events|].
  2:{ destruct Hfetch as [e He]. rewrite (bind_raise _ _ _ _ _ He) in H.
      by simplify_eq. }
  destruct Hfetch as (w1 & Hf & Hc & Ho & Hl & Hcol).
  rewrite (bind_ok _ _ _ _ _ Hf) in H.
  assert (Ht : total_synced b w1 = total_synced b w).
  { unfold total_synced at 1. rewrite Hc. simpl. apply cursor_or_new_total. }
  remember (events_after (last_synced b w) all_events) as unsynced eqn:Hu.
  destruct unsynced as [|e0 rest].
  - unfold ret in H. simplify_eq. split; [done|].
    exists all_events. rewrite <- Hu. simpl.
    repeat split; try done; try lia.
    by destruct Hcol as (_&_&_&_&_&_&_&<-&_).
  - apply transmit_unsynced_spec in H as [Hoth Hr].
    split; [intros b' Hne; rewrite Hoth by done; by apply Ho|].
    destruct r as [n|e].
    + destruct Hr as (Hn & batch & a & HF & Htr & Hacc & Hla & Hls & Htot).
      exists all_events. rewrite <- Hu. split; [done|]. split; [done|].
      split; [by rewrite Htot, Ht|].
      pose proof (Forall2_last _ _ _ HF) as Hlast.
      destruct (last (e0 :: rest)) as [e|] eqn:Hle.
      * exists batch, a. rewrite Hla in Hlast.
        inversion Hlast as [? ? (Hi & _)|]; subst.
        destruct Hcol as (_&_&_&_&_&_&Hb&Htrans&_).
        rewrite Hb, Htrans. by repeat split.
      * by apply last_None in Hle.
    + destruct Hr as [Hls Htot]. by rewrite Hls, Htot, Hl, Ht.
Qed.

(** ** Forward progress *)

Lemma nothing_left_after b (all_events : list Event) w w1 e k :
  ascending_by_id all_events = true →
  last (events_after (last_synced b w) all_events) = Some e →
  ev_id e = Some k →
  last_synced b w1 = Some k →
  outcome (get_events_since_last_sync b all_events) w1 = Ok [].
Proof.
  intros Hasc Hlast Hid Hcur.
  rewrite selector_outcome, Hcur. f_equal.
  apply events_after_bound.
  pose proof (ascending_bound _ _ _ Hasc Hlast) as Hb.
  unfold event_get_id at 2 in Hb. by rewrite Hid in Hb.
Qed.

(** C2: on an event list in ascending order of id, once success is
    recorded with the id of the last event of the transmitted batch (the
    last event the selector returned), the cursor's [last_sync_event_id] is
    that id and the selector, run again on the same list, returns nothing.
    The second part states the same for a whole successful [_sync_bucket]
    call, where the batch is the one recorded in [transmitted]. *)
Theorem success_leaves_nothing_unsynced (b : string)
    (all_events : list Event) (w : World) :
  ascending_by_id all_events = true →
  (∀ e k ts m,
     last (events_after (last_synced b w) all_events) = Some e →
     ev_id e = Some k →
     outcome (update_sync_success b ts k m) w = Ok tt
     ∧ last_synced b (exec (update_sync_success b ts k m) w) = Some k
     ∧ outcome (get_events_since_last_sync b all_events)
         (exec (update_sync_success b ts k m) w) = Ok [])
  ∧ (∀ n,
       db_events (db_module w) b = Some all_events →
       outcome (_sync_bucket b) w = Ok n →
       outcome (get_events_since_last_sync b all_events)
         (exec (_sync_bucket b) w) = Ok []
       ∧ (0 < n →
          ∃ batch a,
            transmitted (exec (_sync_bucket b) w) = transmitted w ++ [batch]
            ∧ last batch = Some a
            ∧ last_synced b (exec (_sync_bucket b) w) = Some (api_id a))).
Proof.
  intros Hasc. split.
  - intros e k ts m Hlast Hid.
    destruct (update_sync_success_spec b ts k m w)
      as (stamp & Ho & Hcur & _ & _).
    assert (Hl : last_synced b (exec (update_sync_success b ts k m) w)
                 = Some k).
    { unfold last_synced. by rewrite Hcur. }
    split; [done|]. split; [done|].
    by eapply nothing_left_after.
  - intros n Hdb Hok. unfold outcome, exec in *.
    destruct (_sync_bucket b w) as [r w'] eqn:Hrun. simpl in *. subst r.
    apply sync_bucket_spec in Hrun as [_ (evs & Hdb' & Hn & _ & Hcase)].
    rewrite Hdb in Hdb'. simplify_eq.
    destruct (last (events_after (last_synced b w) evs)) as [e|] eqn:Hlast.
    + destruct Hcase as (batch & a & _ & Htr & _ & Hla & Hid & Hcur).
      split; [|by eauto].
      by apply (nothing_left_after b evs w w' e (api_id a)).
    + destruct Hcase as [Hl _]. apply last_None in Hlast.
      split.
      * pose proof (selector_outcome b evs w') as Hsel.
        unfold outcome in Hsel. by rewrite Hsel, Hl, Hlast.
      * rewrite Hlast. simpl. lia.
Qed.

Lemma success_leaves_nothing_unsynced_witness :
  ascending_by_id [sample_event 1; sample_event 2; sample_event 3] = true
  ∧ last_synced "window"
      (exec (update_sync_success "window" "2025-08-22T11:59:00+00:00" 3 3)
            fresh_world) = Some 3
  ∧ outcome (get_events_since_last_sync "window"
               [sample_event 1; sample_event 2; sample_event 3])
      (exec (_sync_bucket "window") (exec _ensure_authenticated fresh_world))
    = Ok [].
Proof.
  split; [reflexivity|].
  pose proof (success_leaves_nothing_unsynced "window"
                [sample_event 1; sample_event 2; sample_event 3]
                fresh_world eq_refl) as [Hstore _].
  pose proof (success_leaves_nothing_unsynced "window"
                [sample_event 1; sample_event 2; sample_event 3]
                (exec _ensure_authenticated fresh_world) eq_refl)
    as [_ Hpass].
  split.
  - apply (Hstore (sample_event 3) 3 "2025-08-22T11:59:00+00:00" 3);
      reflexivity.
  - apply (Hpass 3); reflexivity.
Defined.

(** ** Monotonicity of the cursor *)

Lemma id_le_refl x : id_le x x.
Proof. destruct x; simpl; [lia|done]. Qed.

Lemma id_le_trans x y z : id_le x y → id_le y z → id_le x z.
Proof. destruct x, y, z; simpl; try done; lia. Qed.

Lemma success_step b ts k n w :
  outcome (update_sync_success b ts k n) w = Ok tt
  ∧ last_synced b (exec (update_sync_success b ts k n) w) = Some k
  ∧ total_synced b (exec (update_sync_success b ts k n) w)
    = total_synced b w + n.
Proof.
  destruct (update_sync_success_spec b ts k n w) as (stamp & Ho & Hc & _).
  unfold last_synced, total_synced at 1. rewrite Hc. simpl.
  by rewrite cursor_or_new_total.
Qed.

Lemma failure_step b msg n w :
  outcome (update_sync_failure b msg n) w = Ok tt
  ∧ last_synced b (exec (update_sync_failure b msg n) w) = last_synced b w
  ∧ total_synced b (exec (update_sync_failure b msg n) w)
    = total_synced b w + Z.max 0 n.
Proof.
  destruct (update_sync_failure_spec b msg n w) as (stamp & Ho & Hc & _).
  unfold last_synced at 1, total_synced at 1. rewrite Hc. simpl.
  rewrite cursor_or_new_total, cursor_or_new_last.
  split; [done|]. split; [done|].
  destruct (Z.ltb_spec 0 n); lia.
Qed.

Lemma call_returns b c w : outcome (call b c) w = Ok tt.
Proof.
  destruct c as [ts k n|msg n]; simpl.
  - apply success_step.
  - apply failure_step.
Qed.

Lemma calls_cons b c cs w :
  calls b (c :: cs) w = calls b cs (exec (call b c) w).
Proof.
  simpl. pose proof (call_returns b c w) as H. unfold outcome, exec in *.
  destruct (call b c w) as [r w1] eqn:Hc. simpl in *. subst r.
  by rewrite (bind_ok _ _ _ _ _ Hc).
Qed.

Lemma calls_app b cs1 cs2 w :
  exec (calls b (cs1 ++ cs2)) w = exec (calls b cs2) (exec (calls b cs1) w).
Proof.
  revert w. induction cs1 as [|c cs1 IH]; intros w; [done|].
  rewrite <- app_comm_cons. unfold exec at 1 3.
  rewrite !calls_cons. apply IH.
Qed.

Lemma calls_return b cs w : outcome (calls b cs) w = Ok tt.
Proof.
  revert w. induction cs as [|c cs IH]; intros w; [done|].
  unfold outcome. rewrite calls_cons. apply IH.
Qed.

Lemma disciplined_after b cs1 cs2 w :
  disciplined (last_synced b w) (cs1 ++ cs2) →
  disciplined (last_synced b (exec (calls b cs1) w)) cs2.
Proof.
  revert w. induction cs1 as [|c cs1 IH]; intros w H; [done|].
  unfold exec. rewrite calls_cons. apply IH.
  destruct c as [ts k n|msg n]; simpl in *.
  - destruct H as (_ & _ & H).
    by destruct (success_step b ts k n w) as (_ & -> & _).
  - by destruct (failure_step b msg n w) as (_ & -> & _).
Qed.

Lemma disciplined_monotone b cs w :
  disciplined (last_synced b w) cs →
  total_synced b w ≤ total_synced b (exec (calls b cs) w)
  ∧ id_le (last_synced b w) (last_synced b (exec (calls b cs) w)).
Proof.
  revert w. induction cs as [|c cs IH]; intros w H.
  - split; [done|apply id_le_refl].
  - unfold exec. rewrite calls_cons.
    destruct c as [ts k n|msg n]; simpl in H.
    + destruct H as (Hk & Hn & H).
      destruct (success_step b ts k n w) as (_ & Hl & Ht).
      rewrite <- Hl in H. apply IH in H as [IHt IHl].
      split; [unfold exec in *; simpl in *; lia|].
      eapply id_le_trans; [|exact IHl]. simpl. by rewrite Hl.
    + destruct (failure_step b msg n w) as (_ & Hl & Ht).
      rewrite <- Hl in H. apply IH in H as [IHt IHl].
      split; [unfold exec in *; simpl in *; lia|].
      simpl in IHl. by rewrite Hl in IHl.
Qed.

(** C3, as stated, fails: [update_sync_success] has no check on
    [last_event_id].  Recording success with id 50 after id 100 returns
    normally and moves the cursor back to 50. *)
Lemma cursor_moves_back :
  last_synced "window"
    (exec (calls "window" [RecordSuccess "t1" 100 50]) fresh_world)
  = Some 100
  ∧ outcome (update_sync_success "window" "t2" 50 10)
      (exec (calls "window" [RecordSuccess "t1" 100 50]) fresh_world)
    = Ok tt
  ∧ last_synced "window"
      (exec (calls "window"
               [RecordSuccess "t1" 100 50; RecordSuccess "t2" 50 10])
            fresh_world)
    = Some 50
  ∧ ¬ never_decreases.
Proof.
  split; [reflexivity|]. split; [reflexivity|]. split; [reflexivity|].
  intros H.
  destruct (H "window" [RecordSuccess "t1" 100 50]
              [RecordSuccess "t2" 50 10] fresh_world) as [_ Hid].
  vm_compute in Hid. by apply Hid.
Qed.

(** C3, amended: [update_sync_failure] never changes [last_sync_event_id]
    and never lowers [total_events_synced]; [update_sync_success] stores
    the id it is given and adds the count it is given, without a check.
    So along every sequence of recording calls on one bucket in which each
    success carries an id not below the position reached so far and a
    count that is not negative, neither [total_events_synced] nor
    [last_sync_event_id] ever decreases. *)
Theorem disciplined_calls_never_decrease (b : string)
    (cs1 cs2 : list StoreCall) (w : World) :
  disciplined (last_synced b w) (cs1 ++ cs2) →
  (total_synced b (exec (calls b cs1) w)
   ≤ total_synced b (exec (calls b (cs1 ++ cs2)) w)
   ∧ id_le (last_synced b (exec (calls b cs1) w))
           (last_synced b (exec (calls b (cs1 ++ cs2)) w)))
  ∧ (∀ msg n w0,
       outcome (update_sync_failure b msg n) w0 = Ok tt
       ∧ last_synced b (exec (update_sync_failure b msg n) w0)
         = last_synced b w0
       ∧ total_synced b w0
         ≤ total_synced b (exec (update_sync_failure b msg n) w0))
  ∧ (∀ ts k n w0,
       outcome (update_sync_success b ts k n) w0 = Ok tt
       ∧ last_synced b (exec (update_sync_success b ts k n) w0) = Some k
       ∧ total_synced b (exec (update_sync_success b ts k n) w0)
         = total_synced b w0 + n).
Proof.
  intros H. split; [|split].
  - rewrite calls_app. apply disciplined_monotone.
    by apply disciplined_after.
  - intros msg n w0. destruct (failure_step b msg n w0) as (Ho & Hl & Ht).
    split; [done|]. split; [done|]. lia.
  - intros ts k n w0. apply success_step.
Qed.

Lemma disciplined_calls_never_decrease_witness :
  disciplined (last_synced "window" fresh_world)
    ([RecordSuccess "t1" 3 3; RecordFailure "Network error: timeout" 0]
     ++ [RecordSuccess "t2" 5 2])
  ∧ total_synced "window"
      (exec (calls "window"
               [RecordSuccess "t1" 3 3;
                RecordFailure "Network error: timeout" 0]) fresh_world)
    ≤ total_synced "window"
        (exec (calls "window"
                 ([RecordSuccess "t1" 3 3;
                   RecordFailure "Network error: timeout" 0]
                  ++ [RecordSuccess "t2" 5 2])) fresh_world).
Proof.
  assert (Hd : disciplined (last_synced "window" fresh_world)
                 ([RecordSuccess "t1" 3 3;
                   RecordFailure "Network error: timeout" 0]
                  ++ [RecordSuccess "t2" 5 2])).
  { simpl. repeat split; lia. }
  split; [exact Hd|].
  exact (proj1 (proj1 (disciplined_calls_never_decrease "window"
           [RecordSuccess "t1" 3 3; RecordFailure "Network error: timeout" 0]
           [RecordSuccess "t2" 5 2] fresh_world Hd))).
Defined.

(** ** Failures *)

(** C4: a failure recorded with zero events synced leaves the cursor [C]
    of the bucket where it was: [last_sync_event_id],
    [last_sync_timestamp], [total_events_synced], [bucket_id] and
    [created_at] are those of [C]; what the call writes is the record of
    the failure itself, status ['failed'], the message in
    [last_sync_error], and [updated_at].  Other buckets keep their
    cursors, and the selector returns for the same event list what it
    returned before the attempt.  The same holds for a [_sync_bucket]
    call whose transmission fails, which records the failure this way and
    raises ["Failed to send events: ..."]. *)
Theorem failure_keeps_position (b : string) (C : SyncState) (msg : string)
    (w : World) :
  cursor b w = Some C →
  cursor b (exec (update_sync_failure b msg 0) w)
  = Some (mkSyncState (bucket_id C) (last_sync_timestamp C)
            (last_sync_event_id C) (total_events_synced C) "failed"
            (Some msg) (created_at C) (now w))
  ∧ last_synced b (exec (update_sync_failure b msg 0) w)
    = last_sync_event_id C
  ∧ total_synced b (exec (update_sync_failure b msg 0) w)
    = total_events_synced C
  ∧ (∀ b', b' ≠ b →
       cursor b' (exec (update_sync_failure b msg 0) w) = cursor b' w)
  ∧ (∀ all_events,
       outcome (get_events_since_last_sync b all_events)
         (exec (update_sync_failure b msg 0) w)
       = outcome (get_events_since_last_sync b all_events) w)
  ∧ (∀ detail all_events,
       outcome (_sync_bucket b) w
       = Raise (Exception ("Failed to send events: " +:+ detail)) →
       last_synced b (exec (_sync_bucket b) w) = last_sync_event_id C
       ∧ total_synced b (exec (_sync_bucket b) w) = total_events_synced C
       ∧ outcome (get_events_since_last_sync b all_events)
           (exec (_sync_bucket b) w)
         = outcome (get_events_since_last_sync b all_events) w).
Proof.
  intros HC.
  assert (Hcur : cursor b (exec (update_sync_failure b msg 0) w)
            = Some (mkSyncState (bucket_id C) (last_sync_timestamp C)
                      (last_sync_event_id C) (total_events_synced C) "failed"
                      (Some msg) (created_at C) (now w))).
  { unfold exec, update_sync_failure.
    rewrite (bind_ok _ _ _ _ _ (get_or_create_existing b C w HC)).
    run. unfold cursor, states. simpl. by rewrite lookup_insert_eq. }
  assert (HlC : last_synced b w = last_sync_event_id C)
    by (unfold last_synced; by rewrite HC).
  assert (HtC : total_synced b w = total_events_synced C)
    by (unfold total_synced; by rewrite HC).
  split; [exact Hcur|].
  split; [unfold last_synced; by rewrite Hcur|].
  split; [unfold total_synced; by rewrite Hcur|].
  split; [|split].
  - intros b' Hne.
    by destruct (update_sync_failure_spec b msg 0 w) as (_ & _ & _ & Ho & _);
      apply Ho.
  - intros all_events. rewrite !selector_outcome.
    unfold last_synced. by rewrite Hcur, HC.
  - intros detail all_events Hr. unfold outcome, exec in *.
    destruct (_sync_bucket b w) as [r w'] eqn:Hrun. simpl in *. subst r.
    apply sync_bucket_spec in Hrun as [_ [Hl Ht]].
    split; [by rewrite Hl|]. split; [by rewrite Ht|].
    pose proof (selector_outcome b all_events w') as H1.
    pose proof (selector_outcome b all_events w) as H2.
    unfold outcome in *. by rewrite H1, H2, Hl.
Qed.

Lemma failure_keeps_position_witness :
  cursor "window" synced_world
  = Some (mkSyncState "window" (Some "2025-08-22T11:59:00+00:00") (Some 3) 3
            "success" None "2025-08-22T12:00:00+00:00"
            "2025-08-22T12:00:00+00:00")
  ∧ cursor "window"
      (exec (update_sync_failure "window" "Network error: timeout" 0)
            synced_world)
    = Some (mkSyncState "window" (Some "2025-08-22T11:59:00+00:00") (Some 3)
              3 "failed" (Some "Network error: timeout")
              "2025-08-22T12:00:00+00:00" (now synced_world)).
Proof.
  assert (HC : cursor "window" synced_world
            = Some (mkSyncState "window" (Some "2025-08-22T11:59:00+00:00")
                      (Some 3) 3 "success" None "2025-08-22T12:00:00+00:00"
                      "2025-08-22T12:00:00+00:00"))
    by (vm_compute; reflexivity).
  split; [exact HC|].
  exact (proj1 (failure_keeps_position "window" _
                  "Network error: timeout" synced_world HC)).
Defined.

(** ** Status and position *)

Lemma create_sync_state_cursor b b' w :
  cursor b' (exec (create_sync_state b) w)
  = if decide (b = b') then Some (never_cursor b (now w)) else cursor b' w.
Proof.
  run. unfold cursor, states. simpl. by rewrite lookup_insert.
Qed.

Lemma reset_sync_state_cursor b b' w :
  cursor b' (exec (reset_sync_state b) w)
  = if decide (b = b') then None else cursor b' w.
Proof.
  unfold exec, reset_sync_state, bind at 1, get_world. simpl.
  unfold cursor. destruct (states w !! b) eqn:Hb.
  - run. unfold states. simpl. by rewrite lookup_delete.
  - simpl. case_decide; by subst.
Qed.

Lemma never_implies_unset_preserved w w' b :
  never_implies_unset w →
  (∀ b', b' ≠ b → cursor b' w' = cursor b' w) →
  (∀ s, cursor b w' = Some s →
        last_sync_status s = "never" → last_sync_event_id s = None) →
  never_implies_unset w'.
Proof.
  intros Hw Hoth Hb b' s Hs Hn.
  destruct (decide (b' = b)) as [->|Hne]; [by eapply Hb|].
  rewrite Hoth in Hs by done. by eapply Hw.
Qed.

Lemma reachable_never_implies_unset w :
  reachable w → never_implies_unset w.
Proof.
  induction 1 as [w Hw|b w _ IH|b w _ IH|b ts k n w _ IH|b msg n w _ IH
                  |b evs w _ IH|b w _ IH].
  - intros b s Hs. unfold cursor in Hs. by rewrite Hw, lookup_empty in Hs.
  - apply (never_implies_unset_preserved w _ b IH).
    + intros b' Hne. rewrite create_sync_state_cursor.
      by rewrite decide_False.
    + intros s. rewrite create_sync_state_cursor, decide_True by done.
      by intros [= <-].
  - destruct (get_or_create_spec b w) as (w' & Hg & Hc & Ho & _).
    unfold exec. rewrite Hg. simpl.
    apply (never_implies_unset_preserved w _ b IH Ho).
    intros s. rewrite Hc. intros [= <-]. unfold cursor_or_new.
    destruct (cursor b w) as [s|] eqn:Hs; simpl; [by apply (IH b)|done].
  - destruct (update_sync_success_spec b ts k n w)
      as (stamp & _ & Hc & Ho & _).
    apply (never_implies_unset_preserved w _ b IH Ho).
    intros s. rewrite Hc. by intros [= <-].
  - destruct (update_sync_failure_spec b msg n w)
      as (stamp & _ & Hc & Ho & _).
    apply (never_implies_unset_preserved w _ b IH Ho).
    intros s. rewrite Hc. intros [= <-]. simpl. by destruct (0 <? n).
  - destruct (selector_spec b evs w) as (w' & Hg & Hc & Ho & _).
    unfold exec. rewrite Hg. simpl.
    apply (never_implies_unset_preserved w _ b IH Ho).
    intros s. rewrite Hc. intros [= <-]. unfold cursor_or_new.
    destruct (cursor b w) as [s|] eqn:Hs; simpl; [by apply (IH b)|done].
  - apply (never_implies_unset_preserved w _ b IH).
    + intros b' Hne. rewrite reset_sync_state_cursor.
      by rewrite decide_False.
    + intros s. by rewrite reset_sync_state_cursor, decide_True.
Qed.

(** C5, as stated, fails: a failure recorded on a bucket that never synced
    gives status ['failed'] while no event id is recorded. *)
Lemma failed_without_position :
  reachable (exec (update_sync_failure "afk" "API error: 422 - rejected" 0)
                  fresh_world)
  ∧ (last_sync_status <$>
       cursor "afk"
         (exec (update_sync_failure "afk" "API error: 422 - rejected" 0)
               fresh_world)) = Some "failed"
  ∧ last_synced "afk"
      (exec (update_sync_failure "afk" "API error: 422 - rejected" 0)
            fresh_world) = None
  ∧ ¬ never_iff_unset.
Proof.
  assert (Hr : reachable
                 (exec (update_sync_failure "afk" "API error: 422 - rejected" 0)
                       fresh_world)).
  { apply reach_failure, reach_empty. reflexivity. }
  split; [exact Hr|]. split; [reflexivity|]. split; [reflexivity|].
  intros H.
  destruct (cursor "afk"
              (exec (update_sync_failure "afk" "API error: 422 - rejected" 0)
                    fresh_world)) as [s|] eqn:Hs; [|by vm_compute in Hs].
  destruct (H _ _ _ Hr Hs) as [_ Hback].
  vm_compute in Hs. simplify_eq. by specialize (Hback eq_refl).
Qed.

(** C5, amended: in every world reached from an empty store by the store's
    methods, a cursor whose status is ['never'] has no
    [last_sync_event_id]; equivalently, a cursor with a
    [last_sync_event_id] never has status ['never'].  The converse does not
    hold after a failure on a bucket that never synced. *)
Theorem never_status_has_no_position (w : World) (b : string)
    (s : SyncState) :
  reachable w →
  cursor b w = Some s →
  (last_sync_status s = "never" → last_sync_event_id s = None)
  ∧ (is_Some (last_sync_event_id s) → last_sync_status s ≠ "never").
Proof.
  intros Hr Hs.
  pose proof (reachable_never_implies_unset w Hr b s Hs) as H.
  split; [done|]. intros [k Hk] Hn. rewrite (H Hn) in Hk. done.
Qed.

Lemma never_status_has_no_position_witness :
  reachable (exec (create_sync_state "window") fresh_world)
  ∧ cursor "window" (exec (create_sync_state "window") fresh_world)
    = Some (never_cursor "window" "2025-08-22T12:00:00+00:00")
  ∧ (last_sync_status (never_cursor "window" "2025-08-22T12:00:00+00:00")
     = "never" →
     last_sync_event_id (never_cursor "window" "2025-08-22T12:00:00+00:00")
     = None).
Proof.
  assert (Hr : reachable (exec (create_sync_state "window") fresh_world))
    by (apply reach_create, reach_empty; reflexivity).
  assert (Hc : cursor "window" (exec (create_sync_state "window") fresh_world)
               = Some (never_cursor "window" "2025-08-22T12:00:00+00:00"))
    by (vm_compute; reflexivity).
  split; [exact Hr|]. split; [exact Hc|].
  exact (proj1 (never_status_has_no_position _ _ _ Hr Hc)).
Defined.

(** ** Side effects of the selector *)

(** C8, as stated, fails: on a bucket without a cursor the selector goes
    through [get_or_create_sync_state], which adds a cursor to the table
    and saves the table to disk. *)
Lemma selector_creates_cursor :
  cursor "window" fresh_world = None
  ∧ state_file (disk (sync_state_manager fresh_world)) = None
  ∧ is_Some (cursor "window"
               (exec (get_events_since_last_sync "window" [sample_event 1])
                     fresh_world))
  ∧ is_Some (state_file
               (disk (sync_state_manager
                  (exec (get_events_since_last_sync "window" [sample_event 1])
                        fresh_world))))
  ∧ ¬ selector_is_pure.
Proof.
  split; [reflexivity|]. split; [reflexivity|].
  split; [vm_compute; eauto|]. split; [vm_compute; eauto|].
  intros H. specialize (H "window" [sample_event 1] fresh_world).
  apply (f_equal (fun m => state_file (disk m))) in H.
  vm_compute in H. discriminate H.
Qed.

Lemma selector_keeps_db b all_events w :
  db_module (exec (get_events_since_last_sync b all_events) w) = db_module w.
Proof.
  run. destruct (states w !! b) as [s|]; simpl; [|done].
  by destruct (last_sync_event_id s).
Qed.

(** C8, amended: the selector never changes the cursor of a bucket that
    has one (the world is left as it was), never changes the cursor of
    another bucket, and touches nothing outside the cursor store and the
    clock.  For a bucket without a cursor it creates one with status
    ['never'] and no [last_sync_event_id] and saves the table to disk; the
    bucket is still at its first sync afterwards, as the selector keeps
    returning every event it is given. *)
Theorem selector_effects (b : string) (all_events : list Event) (w : World) :
  match cursor b w with
  | Some _ => exec (get_events_since_last_sync b all_events) w = w
  | None =>
      states (exec (get_events_since_last_sync b all_events) w)
      = <[b := never_cursor b (now w)]> (states w)
      ∧ state_file (disk (sync_state_manager
                            (exec (get_events_since_last_sync b all_events) w)))
        = Some (Json (<[b := never_cursor b (now w)]> (states w)))
      ∧ last_synced b (exec (get_events_since_last_sync b all_events) w)
        = None
      ∧ outcome (get_events_since_last_sync b all_events) w = Ok all_events
      ∧ ∀ events,
          outcome (get_events_since_last_sync b events)
            (exec (get_events_since_last_sync b all_events) w)
          = Ok events
  end
  ∧ (∀ b', b' ≠ b →
       cursor b' (exec (get_events_since_last_sync b all_events) w)
       = cursor b' w)
  ∧ collaborators_eq w (exec (get_events_since_last_sync b all_events) w)
  ∧ db_module (exec (get_events_since_last_sync b all_events) w)
    = db_module w.
Proof.
  split; [|split; [|split; [|apply selector_keeps_db]]].
  - destruct (cursor b w) as [s|] eqn:Hs.
    + unfold exec, get_events_since_last_sync.
      rewrite (bind_ok _ _ _ _ _ (get_or_create_existing b s w Hs)).
      by destruct (last_sync_event_id s).
    + assert (Hst : states (exec (get_events_since_last_sync b all_events) w)
                    = <[b := never_cursor b (now w)]> (states w)).
      { unfold cursor in Hs. run. by rewrite Hs. }
      assert (Hl : last_synced b
                     (exec (get_events_since_last_sync b all_events) w)
                   = None).
      { unfold last_synced, cursor. by rewrite Hst, lookup_insert_eq. }
      split; [exact Hst|]. split.
      { unfold cursor in Hs. run. rewrite Hs. simpl.
        unfold save_steps, run_steps. simpl.
        by destruct (state_file (disk (sync_state_manager w))). }
      split; [exact Hl|]. split.
      { rewrite selector_outcome. unfold last_synced. by rewrite Hs. }
      intros events. by rewrite selector_outcome, Hl.
  - destruct (selector_spec b all_events w) as (w' & Hg & _ & Ho & _ & Hf).
    unfold exec. by rewrite Hg.
  - destruct (selector_spec b all_events w) as (w' & Hg & _ & Ho & _ & Hf).
    unfold exec. by rewrite Hg.
Qed.

(** ** Saving the table *)

Lemma save_steps_existing m old :
  state_file (disk m) = Some old →
  save_steps m = [RenameToBackup; OpenForWrite; Dump (_sync_states m)].
Proof. unfold save_steps. by intros ->. Qed.

Lemma save_is_all_steps w :
  disk (sync_state_manager (exec _save_sync_states w))
  = interrupted_save (length (save_steps (sync_state_manager w)))
                     (sync_state_manager w).
Proof.
  unfold interrupted_save. rewrite firstn_all. reflexivity.
Qed.

(** C9, as stated, fails: [_save_sync_states] renames the state file away
    before it writes the new one.  Interrupted between the two, it leaves
    no state file; the next start then reads an empty table, which is
    neither the old nor the new state. *)
Lemma interrupted_save_loses_state_file :
  state_file (disk (sync_state_manager synced_world))
  = Some (Json (states synced_world))
  ∧ state_file (interrupted_save 1 (sync_state_manager synced_world)) = None
  ∧ state_file (interrupted_save 2 (sync_state_manager synced_world))
    = Some Unparsable
  ∧ _load_sync_states
      (interrupted_save 1 (sync_state_manager synced_world)) = ∅
  ∧ ¬ crash_safe.
Proof.
  split; [vm_compute; reflexivity|]. split; [reflexivity|].
  split; [reflexivity|]. split; [reflexivity|].
  intros H.
  destruct (H 1%nat (sync_state_manager synced_world)) as [Heq|Heq];
    apply (f_equal (fun d : gmap string SyncState => d !! "window")) in Heq;
    vm_compute in Heq; discriminate Heq.
Qed.

(** C9, amended: a save that runs to its end leaves the new table in the
    state file and the previous state file as its [.json.backup].  At
    every point where the save can be interrupted the previous complete
    state is still on disk, in the state file before the rename and in the
    backup after it.  The state file itself is not replaced atomically:
    after the rename it is missing, after the open it is empty, and
    [_load_sync_states], which does not read the backup, then starts from
    an empty table. *)
Theorem save_keeps_previous_state (m : SyncStateManager) (k : nat)
    (old : FileContent) :
  state_file (disk m) = Some old →
  (state_file (interrupted_save k m) = Some old
   ∨ backup_file (interrupted_save k m) = Some old)
  ∧ match k with
    | O => interrupted_save k m = disk m
    | 1%nat =>
        interrupted_save k m = mkFileSystem None (Some old)
        ∧ _load_sync_states (interrupted_save k m) = ∅
    | 2%nat =>
        interrupted_save k m = mkFileSystem (Some Unparsable) (Some old)
        ∧ _load_sync_states (interrupted_save k m) = ∅
    | _ =>
        interrupted_save k m
        = mkFileSystem (Some (Json (_sync_states m))) (Some old)
        ∧ _load_sync_states (interrupted_save k m) = _sync_states m
    end
  ∧ (∀ w, sync_state_manager w = m →
       disk (sync_state_manager (exec _save_sync_states w))
       = mkFileSystem (Some (Json (_sync_states m))) (Some old)).
Proof.
  intros Hold. unfold interrupted_save.
  rewrite (save_steps_existing m old Hold).
  split; [|split].
  - destruct k as [|[|[|k]]]; simpl; rewrite ?take_nil, ?Hold; simpl; auto.
  - destruct k as [|[|[|k]]]; simpl; rewrite ?take_nil, ?Hold; simpl; auto.
  - intros w <-. rewrite save_is_all_steps. unfold interrupted_save.
    rewrite (save_steps_existing _ old Hold). simpl. by rewrite Hold.
Qed.

Lemma save_keeps_previous_state_witness :
  state_file (disk (sync_state_manager synced_world))
  = Some (Json (states synced_world))
  ∧ (state_file (interrupted_save 1 (sync_state_manager synced_world))
     = Some (Json (states synced_world))
     ∨ backup_file (interrupted_save 1 (sync_state_manager synced_world))
       = Some (Json (states synced_world))).
Proof.
  assert (Hold : state_file (disk (sync_state_manager synced_world))
                 = Some (Json (states synced_world)))
    by (vm_compute; reflexivity).
  split; [exact Hold|].
  exact (proj1 (save_keeps_previous_state (sync_state_manager synced_world)
                  1 (Json (states synced_world)) Hold)).
Defined.

(** ** The pass: [sync_all_buckets] *)

Lemma ensure_authenticated_unavailable w :
  token_unavailable w → _ensure_authenticated w = (Ok false, w).
Proof.
  unfold _ensure_authenticated, bind, get_world, ret.
  intros [Ha|Ht].
  - by rewrite Ha.
  - destruct (is_authenticated (oauth_manager w)); simpl; [|done].
    destruct (api_client w); [done|].
    destruct (load_tokens (oauth_manager w)) as [tokens|]; [|done].
    simpl in Ht. by rewrite Ht.
Qed.

(** C6: without a valid bearer token [sync_all_buckets] returns
    [success = False], the single error ["Authentication required"], zero
    events and zero buckets.  The only thing that changes in the world is
    the clock, read once for the timestamp of the result: no cursor is
    written, nothing is transmitted, the database is not opened and the
    statistics are not touched. *)
Theorem no_token_aborts_pass (w : World) :
  token_unavailable w →
  sync_all_buckets w
  = (Ok (mkSyncResult false 0 0 ["Authentication required"] (now w)), tick w)
  ∧ sync_state_manager (exec sync_all_buckets w) = sync_state_manager w
  ∧ transmitted (exec sync_all_buckets w) = transmitted w
  ∧ db_module (exec sync_all_buckets w) = db_module w
  ∧ _sync_stats (exec sync_all_buckets w) = _sync_stats w.
Proof.
  intros H.
  assert (Heq : sync_all_buckets w
                = (Ok (mkSyncResult false 0 0 ["Authentication required"]
                         (now w)), tick w)).
  { unfold sync_all_buckets, try_except.
    rewrite (bind_ok _ _ _ _ _ (ensure_authenticated_unavailable w H)).
    reflexivity. }
  unfold exec. rewrite Heq. by repeat split.
Qed.

Lemma no_token_aborts_pass_witness :
  token_unavailable logged_out_world
  ∧ sync_all_buckets logged_out_world
    = (Ok (mkSyncResult false 0 0 ["Authentication required"]
             (now logged_out_world)), tick logged_out_world).
Proof.
  assert (H : token_unavailable logged_out_world) by (left; reflexivity).
  split; [exact H|].
  exact (proj1 (no_token_aborts_pass logged_out_world H)).
Defined.

Lemma sync_all_buckets_returns w :
  ∃ r w', sync_all_buckets w = (Ok r, w').
Proof.
  unfold sync_all_buckets, try_except.
  match goal with
  | |- context [match ?c with _ => _ end] => destruct c as [[r|e] w1]
  end.
  - eauto.
  - unfold bind, utc_now_iso, ret. simpl. eauto.
Qed.

Lemma sync_buckets_ok b rest acc w n w1 :
  _sync_bucket b w = (Ok n, w1) →
  sync_buckets (b :: rest) acc w
  = sync_buckets rest
      (mkPass (pass_errors acc) (pass_events acc + n) (pass_buckets acc + 1))
      w1.
Proof.
  intros H. simpl. unfold try_except, bind at 1 2. by rewrite H.
Qed.

Lemma sync_buckets_raise b rest acc w e w1 :
  _sync_bucket b w = (Raise e, w1) →
  sync_buckets (b :: rest) acc w
  = sync_buckets rest
      (mkPass (pass_errors acc ++ [bucket_error b e]) (pass_events acc)
              (pass_buckets acc))
      w1.
Proof.
  intros H. simpl. unfold try_except, bind at 1 2. by rewrite H.
Qed.

Lemma sync_buckets_spec buckets acc w :
  ∃ acc' w',
    sync_buckets buckets acc w = (Ok acc', w')
    ∧ pass_errors acc'
      = pass_errors acc
        ++ map (fun f => bucket_error f.1 f.2) (failed_buckets buckets w)
    ∧ pass_buckets acc' + Z.of_nat (length (failed_buckets buckets w))
      = pass_buckets acc + Z.of_nat (length buckets)
    ∧ (∀ b', b' ∉ buckets → cursor b' w' = cursor b' w).
Proof.
  revert acc w. induction buckets as [|b rest IH]; intros acc w.
  - exists acc, w. simpl. rewrite app_nil_r. repeat split; lia.
  - destruct (_sync_bucket b w) as [[n|e] w1] eqn:Hb.
    + rewrite (sync_buckets_ok _ _ _ _ _ _ Hb). simpl. rewrite Hb.
      destruct (IH (mkPass (pass_errors acc) (pass_events acc + n)
                           (pass_buckets acc + 1)) w1)
        as (acc' & w' & Hrun & Herr & Hcount & Hoth).
      exists acc', w'. simpl in *. split; [done|]. split; [done|].
      split; [lia|].
      intros b' Hnot. apply not_elem_of_cons in Hnot as [Hne Hnot].
      rewrite Hoth by done.
      by apply (sync_bucket_spec b w (Ok n) w1 Hb).
    + rewrite (sync_buckets_raise _ _ _ _ _ _ Hb). simpl. rewrite Hb.
      destruct (IH (mkPass (pass_errors acc ++ [bucket_error b e])
                           (pass_events acc) (pass_buckets acc)) w1)
        as (acc' & w' & Hrun & Herr & Hcount & Hoth).
      exists acc', w'. simpl in *. split; [done|].
      split; [by rewrite Herr, <- app_assoc|].
      split; [lia|].
      intros b' Hnot. apply not_elem_of_cons in Hnot as [Hne Hnot].
      rewrite Hoth by done.
      by apply (sync_bucket_spec b w (Raise e) w1 Hb).
Qed.

Lemma failed_buckets_elem_of buckets w b e :
  (b, e) ∈ failed_buckets buckets w →
  b ∈ buckets ∧ ∃ w0, outcome (_sync_bucket b) w0 = Raise e.
Proof.
  revert w. induction buckets as [|b0 rest IH]; intros w; simpl.
  - by intros ?%elem_of_nil.
  - destruct (_sync_bucket b0 w) as [[n|e0] w1] eqn:Hb.
    + intros [Hin Hw]%IH. split; [by right|done].
    + intros [[= -> ->]|[Hin Hw]%IH]%elem_of_cons.
      * split; [by left|]. exists w. unfold outcome. by rewrite Hb.
      * split; [by right|done].
Qed.

Lemma ensure_authenticated_db w r w1 :
  _ensure_authenticated w = (r, w1) →
  db_module w1 = db_module w
  ∧ sync_state_manager w1 = sync_state_manager w
  ∧ transmitted w1 = transmitted w.
Proof.
  unfold _ensure_authenticated, bind, get_world, ret, modify. simpl.
  destruct (is_authenticated (oauth_manager w)); simpl;
    [|by intros [= <- <-]].
  destruct (api_client w); [by intros [= <- <-]|].
  destruct (load_tokens (oauth_manager w)) as [tokens|];
    [|by intros [= <- <-]].
  destruct (tokens !! "access_token"); by intros [= <- <-].
Qed.

Lemma sync_all_buckets_authenticated w w1 buckets :
  _ensure_authenticated w = (Ok true, w1) →
  db_reachable (db_module w) = true →
  db_buckets (db_module w) = Some buckets →
  ∃ r w',
    sync_all_buckets w = (Ok r, w')
    ∧ errors r
      = map (fun f => bucket_error f.1 f.2)
            (failed_buckets buckets (set_connection true w1))
    ∧ buckets_synced r
      + Z.of_nat (length (failed_buckets buckets (set_connection true w1)))
      = Z.of_nat (length buckets)
    ∧ success r = bool_decide (length (errors r) = 0%nat)
    ∧ (∀ b', b' ∉ buckets → cursor b' w' = cursor b' w).
Proof.
  intros Hauth Hr Hb.
  destruct (ensure_authenticated_db _ _ _ Hauth) as (Hdb & Hm & _).
  destruct (sync_buckets_spec buckets (mkPass [] 0 0) (set_connection true w1))
    as (acc & w2 & Hrun & Herr & Hcount & Hoth).
  assert (Hloop : with_db (buckets <- get_buckets ;;
                           sync_buckets buckets (mkPass [] 0 0)) w1
                  = (Ok acc, disconnect w2)).
  { unfold with_db.
    assert (Hconn : connect w1 = (Ok tt, set_connection true w1)).
    { unfold connect, bind, get_world, modify. by rewrite Hdb, Hr. }
    rewrite (bind_ok _ _ _ _ _ Hconn). unfold finally.
    assert (Hget : get_buckets (set_connection true w1)
                   = (Ok buckets, set_connection true w1)).
    { unfold get_buckets, bind, get_world, ret. simpl. by rewrite Hdb, Hb. }
    by rewrite (bind_ok _ _ _ _ _ Hget), Hrun. }
  eexists _, _. split.
  - unfold sync_all_buckets, try_except.
    rewrite (bind_ok _ _ _ _ _ Hauth). simpl.
    rewrite (bind_ok _ _ _ _ _ Hloop). reflexivity.
  - simpl in *. split; [done|]. split; [lia|]. split; [done|].
    intros b' Hnot. unfold cursor, states in *. simpl.
    rewrite Hoth by done. simpl. by rewrite Hm.
Qed.

(** C7: in the loop of one pass, a bucket whose [_sync_bucket] call raises
    adds one message to the error list, naming that bucket, and the loop
    goes on with the remaining buckets.  The loop always runs to its end:
    every bucket is either counted in [buckets_synced] or has its message
    in the list, in the order of processing.  A [_sync_bucket] call,
    whether it returns or raises, leaves the cursor of every other bucket
    as it was.  [sync_all_buckets] never raises; with a token and a
    readable database its result carries exactly the messages of the
    buckets that failed. *)
Theorem bucket_failure_stays_local (w : World) (buckets : list string)
    (acc : Pass) :
  (∃ r w', sync_all_buckets w = (Ok r, w'))
  ∧ (∃ acc' w',
       sync_buckets buckets acc w = (Ok acc', w')
       ∧ pass_errors acc'
         = pass_errors acc
           ++ map (fun f => bucket_error f.1 f.2) (failed_buckets buckets w)
       ∧ pass_buckets acc' + Z.of_nat (length (failed_buckets buckets w))
         = pass_buckets acc + Z.of_nat (length buckets)
       ∧ (∀ b', b' ∉ buckets → cursor b' w' = cursor b' w))
  ∧ (∀ b rest e w1,
       _sync_bucket b w = (Raise e, w1) →
       sync_buckets (b :: rest) acc w
       = sync_buckets rest
           (mkPass (pass_errors acc ++ [bucket_error b e]) (pass_events acc)
                   (pass_buckets acc))
           w1)
  ∧ (∀ b b', b' ≠ b → cursor b' (exec (_sync_bucket b) w) = cursor b' w)
  ∧ (∀ b e,
       (b, e) ∈ failed_buckets buckets w →
       b ∈ buckets ∧ ∃ w0, outcome (_sync_bucket b) w0 = Raise e)
  ∧ (∀ w1,
       _ensure_authenticated w = (Ok true, w1) →
       db_reachable (db_module w) = true →
       db_buckets (db_module w) = Some buckets →
       ∃ r w',
         sync_all_buckets w = (Ok r, w')
         ∧ errors r
           = map (fun f => bucket_error f.1 f.2)
                 (failed_buckets buckets (set_connection true w1))
         ∧ buckets_synced r
           + Z.of_nat
               (length (failed_buckets buckets (set_connection true w1)))
           = Z.of_nat (length buckets)).
Proof.
  split; [apply sync_all_buckets_returns|].
  split; [apply sync_buckets_spec|].
  split; [intros b rest e w1; apply sync_buckets_raise|].
  split.
  { intros b b' Hne. unfold exec.
    destruct (_sync_bucket b w) as [r w1] eqn:Hb.
    by apply (sync_bucket_spec b w r w1 Hb). }
  split; [intros b e; apply failed_buckets_elem_of|].
  intros w1 Hauth Hr Hb.
  destruct (sync_all_buckets_authenticated w w1 buckets Hauth Hr Hb)
    as (r & w' & Hrun & Herr & Hcount & _).
  by exists r, w'.
Qed.

Lemma bucket_failure_stays_local_witness :
  outcome sync_all_buckets fresh_world
  = Ok (mkSyncResult false 3 1
          ["Failed to sync bucket afk: Failed to send events: API error: 422 - rejected"]
          "2025-08-22T12:00:00+00:00")
  ∧ "window" ≠ "afk"
  ∧ cursor "window" (exec (_sync_bucket "afk") synced_world)
    = cursor "window" synced_world
  ∧ ∃ r w', sync_all_buckets fresh_world = (Ok r, w').
Proof.
  split; [vm_compute; reflexivity|].
  assert (Hne : "window" ≠ "afk") by discriminate.
  split; [exact Hne|].
  pose proof (bucket_failure_stays_local synced_world ["afk"; "window"]
                (mkPass [] 0 0)) as (_ & _ & _ & Hiso & _).
  pose proof (bucket_failure_stays_local fresh_world ["afk"; "window"]
                (mkPass [] 0 0)) as (Hret & _).
  split; [exact (Hiso "afk" "window" Hne)|exact Hret].
Defined.

(** ** Scenarios *)

(** Bucket [window] with events 1, 2, 3, all accepted: the cursor ends at
    id 3 with three events synced and status ['success']; a second call on
    the same events sends nothing. *)
Example scenario_window_synced :
  outcome (_sync_bucket "window") (exec _ensure_authenticated fresh_world)
  = Ok 3
  ∧ cursor "window"
      (exec (_sync_bucket "window") (exec _ensure_authenticated fresh_world))
    = Some (mkSyncState "window" (Some "2025-08-22T11:59:00+00:00") (Some 3)
              3 "success" None "2025-08-22T12:00:00+00:00"
              "2025-08-22T12:00:00+00:00")
  ∧ outcome (_sync_bucket "window")
      (exec (_sync_bucket "window") (exec _ensure_authenticated fresh_world))
    = Ok 0.
Proof. repeat split; vm_compute; reflexivity. Qed.

(** Bucket [afk] with events 1, 2, rejected by the backend: the cursor is
    ['failed'] with the error on record and no [last_sync_event_id]; the
    selector still returns every event of a longer list. *)
Example scenario_afk_rejected :
  outcome (_sync_bucket "afk") (exec _ensure_authenticated fresh_world)
  = Raise (Exception "Failed to send events: API error: 422 - rejected")
  ∧ cursor "afk"
      (exec (_sync_bucket "afk") (exec _ensure_authenticated fresh_world))
    = Some (mkSyncState "afk" None None 0 "failed"
              (Some "API error: 422 - rejected") "2025-08-22T12:00:00+00:00"
              "2025-08-22T12:00:00+00:00")
  ∧ outcome (get_events_since_last_sync "afk"
               [sample_event 1; sample_event 2; sample_event 3])
      (exec (_sync_bucket "afk") (exec _ensure_authenticated fresh_world))
    = Ok [sample_event 1; sample_event 2; sample_event 3].
Proof. repeat split; vm_compute; reflexivity. Qed.

(** An event dictionary that lacks a key the batch needs makes
    [_sync_bucket] raise [KeyError] before anything is sent. *)
Example scenario_missing_key :
  outcome (transmit_unsynced "window" [anonymous_event])
          (exec _ensure_authenticated fresh_world)
  = Raise (KeyError "id")
  ∧ transmitted (exec (transmit_unsynced "window" [anonymous_event])
                      (exec _ensure_authenticated fresh_world)) = [].
Proof. split; reflexivity. Qed.

(** [_ensure_authenticated] answers [True] only on the call that builds
    the API client: a second pass of the same manager reports
    ["Authentication required"]. *)
Example scenario_second_pass :
  outcome _ensure_authenticated fresh_world = Ok true
  ∧ outcome _ensure_authenticated synced_world = Ok false
  ∧ (errors <$> match outcome sync_all_buckets synced_world with
                | Ok r => Some r
                | Raise _ => None
                end) = Some ["Authentication required"].
Proof. repeat split; vm_compute; reflexivity. Qed.

(** * Further properties of the cursor store *)

(** X1: [get_or_create_sync_state] is idempotent: a second call returns
    the very cursor the first call returned, with the same [created_at],
    and changes nothing, not even the clock. *)
Theorem get_or_create_idempotent (b : string) (w : World) :
  ∃ s w1,
    get_or_create_sync_state b w = (Ok s, w1)
    ∧ get_or_create_sync_state b w1 = (Ok s, w1)
    ∧ cursor b w1 = Some s
    ∧ match cursor b w with
      | Some c => s = c ∧ w1 = w
      | None => s = never_cursor b (now w)
      end.
Proof.
  destruct (get_or_create_spec b w) as (w1 & Hg & Hc & _).
  exists (cursor_or_new b w), w1. split; [done|].
  split; [by apply get_or_create_existing|]. split; [done|].
  unfold cursor_or_new in *. destruct (cursor b w) as [c|] eqn:Hcw; simpl.
  - rewrite (get_or_create_existing b c w Hcw) in Hg. by simplify_eq.
  - done.
Qed.

Lemma save_persists w :
  persisted (exec _save_sync_states w)
  ∧ states (exec _save_sync_states w) = states w
  ∧ state_file (disk (sync_state_manager (exec _save_sync_states w)))
    = Some (Json (states w)).
Proof.
  unfold persisted, exec, _save_sync_states, modify, states, save_steps,
    run_steps. simpl.
  by destruct (state_file (disk (sync_state_manager w))).
Qed.

Ltac saved w :=
  unfold persisted, states, save_steps, run_steps; simpl;
  by destruct (state_file (disk (sync_state_manager w))).

Lemma create_persists b w : persisted (exec (create_sync_state b) w).
Proof.
  unfold exec, create_sync_state, _save_sync_states, bind, utc_now_iso,
    modify, ret. simpl. saved w.
Qed.

Lemma get_or_create_persists b w :
  persisted w → persisted (exec (get_or_create_sync_state b) w).
Proof.
  intros H. unfold exec, get_or_create_sync_state, get_sync_state,
    bind at 1, get_world, ret. simpl.
  destruct (states w !! b); [done|]. apply create_persists.
Qed.

Lemma update_sync_success_persists b ts k n w :
  persisted (exec (update_sync_success b ts k n) w).
Proof.
  destruct (get_or_create_spec b w) as (w1 & Hg & _).
  unfold exec, update_sync_success. rewrite (bind_ok _ _ _ _ _ Hg).
  unfold _save_sync_states, bind, utc_now_iso, modify. simpl. saved w1.
Qed.

Lemma update_sync_failure_persists b msg n w :
  persisted (exec (update_sync_failure b msg n) w).
Proof.
  destruct (get_or_create_spec b w) as (w1 & Hg & _).
  unfold exec, update_sync_failure. rewrite (bind_ok _ _ _ _ _ Hg).
  unfold _save_sync_states, bind, utc_now_iso, modify. simpl. saved w1.
Qed.

Lemma selector_persists b all_events w :
  persisted w → persisted (exec (get_events_since_last_sync b all_events) w).
Proof.
  intros H. pose proof (get_or_create_persists b w H) as Hp.
  unfold exec in *. unfold get_events_since_last_sync, bind.
  destruct (get_or_create_sync_state b w) as [[s|e] w1]; [|done].
  by destruct (last_sync_event_id s).
Qed.

Lemma reset_persists b w :
  persisted w → persisted (exec (reset_sync_state b) w).
Proof.
  intros H. unfold exec, reset_sync_state, bind at 1, get_world. simpl.
  destruct (states w !! b); [|done].
  unfold _save_sync_states, bind, modify. simpl. saved w.
Qed.

(** X2: the state file follows the table in memory.  A manager built by
    [__init__] starts with what the file holds, every method of the store
    keeps the two equal, and the methods that write
    ([create_sync_state], [update_sync_success], [update_sync_failure])
    make them equal whatever the disk held before. *)
Theorem store_stays_persisted (w : World) :
  persisted w →
  (∀ b, persisted (exec (create_sync_state b) w))
  ∧ (∀ b, persisted (exec (get_or_create_sync_state b) w))
  ∧ (∀ b ts k n, persisted (exec (update_sync_success b ts k n) w))
  ∧ (∀ b msg n, persisted (exec (update_sync_failure b msg n) w))
  ∧ (∀ b all_events,
       persisted (exec (get_events_since_last_sync b all_events) w))
  ∧ (∀ b, persisted (exec (reset_sync_state b) w))
  ∧ (∀ fs, persisted (set_manager (SyncStateManager_init fs) w)).
Proof.
  intros H. repeat split; intros.
  - apply create_persists.
  - by apply get_or_create_persists.
  - apply update_sync_success_persists.
  - apply update_sync_failure_persists.
  - by apply selector_persists.
  - by apply reset_persists.
Qed.

Lemma store_stays_persisted_witness :
  persisted fresh_world
  ∧ persisted (exec (update_sync_success "window" "t1" 3 3) fresh_world).
Proof.
  assert (H : persisted fresh_world) by reflexivity.
  split; [exact H|].
  pose proof (store_stays_persisted fresh_world H) as (_ & _ & Hs & _).
  exact (Hs "window" "t1" 3 3).
Defined.


(** X4: [reset_sync_state] on a bucket without a cursor does nothing at
    all (no write to disk).  On a bucket with a cursor it removes the
    cursor, leaves the other buckets alone and saves the table, so the
    bucket is back at its first sync: the selector returns every event and
    nothing counts as synced. *)
Theorem reset_forgets_bucket (b : string) (w : World) :
  match cursor b w with
  | None => reset_sync_state b w = (Ok tt, w)
  | Some _ =>
      outcome (reset_sync_state b) w = Ok tt
      ∧ states (exec (reset_sync_state b) w) = delete b (states w)
      ∧ state_file (disk (sync_state_manager (exec (reset_sync_state b) w)))
        = Some (Json (delete b (states w)))
      ∧ total_synced b (exec (reset_sync_state b) w) = 0
      ∧ (∀ all_events,
           outcome (get_events_since_last_sync b all_events)
             (exec (reset_sync_state b) w) = Ok all_events)
  end
  ∧ (∀ b', b' ≠ b → cursor b' (exec (reset_sync_state b) w) = cursor b' w).
Proof.
  split.
  - unfold cursor. destruct (states w !! b) as [c|] eqn:Hc.
    + assert (Hst : states (exec (reset_sync_state b) w)
                    = delete b (states w)).
      { unfold exec, reset_sync_state, bind at 1, get_world. simpl.
        by rewrite Hc. }
      assert (Hcur : cursor b (exec (reset_sync_state b) w) = None).
      { unfold cursor. by rewrite Hst, lookup_delete_eq. }
      split.
      { unfold outcome, reset_sync_state, bind at 1, get_world. simpl.
        by rewrite Hc. }
      split; [done|]. split.
      { unfold exec, reset_sync_state, bind at 1, get_world. simpl.
        rewrite Hc. unfold _save_sync_states, bind, modify. simpl.
        unfold save_steps, run_steps. simpl.
        by destruct (state_file (disk (sync_state_manager w))). }
      split; [unfold total_synced; by rewrite Hcur|].
      intros all_events. rewrite selector_outcome. unfold last_synced.
      by rewrite Hcur.
    + unfold reset_sync_state, bind, get_world. simpl. by rewrite Hc.
  - intros b' Hne. rewrite reset_sync_state_cursor. by rewrite decide_False.
Qed.

(** X5: a failure recorded with a positive number of events synced gives
    status ['partial'] and adds the number to [total_events_synced], but
    leaves [last_sync_event_id] where it was: the selector returns the
    same events as before, the credited ones included. *)
Theorem partial_failure_credits_without_advancing (b : string)
    (msg : string) (n : Z) (w : World) :
  0 < n →
  (last_sync_status <$> cursor b (exec (update_sync_failure b msg n) w))
  = Some "partial"
  ∧ (cursor b (exec (update_sync_failure b msg n) w) ≫= last_sync_error)
    = Some msg
  ∧ total_synced b (exec (update_sync_failure b msg n) w)
    = total_synced b w + n
  ∧ last_synced b (exec (update_sync_failure b msg n) w) = last_synced b w
  ∧ (∀ all_events,
       outcome (get_events_since_last_sync b all_events)
         (exec (update_sync_failure b msg n) w)
       = outcome (get_events_since_last_sync b all_events) w).
Proof.
  intros Hn.
  destruct (update_sync_failure_spec b msg n w) as (stamp & _ & Hc & _).
  destruct (failure_step b msg n w) as (_ & Hl & Ht).
  assert (Hpos : (0 <? n) = true) by (by apply Z.ltb_lt).
  rewrite Hpos in Hc. rewrite Hc. simpl.
  split; [done|]. split; [done|]. split; [lia|]. split; [done|].
  intros all_events. by rewrite !selector_outcome, Hl.
Qed.

Lemma partial_failure_credits_without_advancing_witness :
  0 < 2
  ∧ total_synced "window"
      (exec (update_sync_failure "window" "Network error: reset" 2)
            synced_world)
    = total_synced "window" synced_world + 2.
Proof.
  assert (H : 0 < 2) by lia.
  split; [exact H|].
  exact (proj1 (proj2 (proj2
    (partial_failure_credits_without_advancing "window"
       "Network error: reset" 2 synced_world H)))).
Defined.

Lemma interrupted_steps_disk m k old :
  state_file (disk m) = Some old →
  k = 1%nat ∨ k = 2%nat →
  interrupted_save k m = mkFileSystem None (Some old)
  ∨ interrupted_save k m = mkFileSystem (Some Unparsable) (Some old).
Proof.
  intros Hold Hk. unfold interrupted_save.
  rewrite (save_steps_existing m old Hold).
  destruct Hk as [-> | ->]; simpl; rewrite Hold; auto.
Qed.

(** X6: a process restarted on a disk where a save was interrupted after
    the rename or after the open finds no cursor for any bucket: whatever
    had been synced, the selector returns every event again. *)
Theorem restart_after_interrupted_save (m : SyncStateManager) (k : nat)
    (old : FileContent) (w : World) :
  state_file (disk m) = Some old →
  k = 1%nat ∨ k = 2%nat →
  sync_state_manager w = SyncStateManager_init (interrupted_save k m) →
  states w = ∅
  ∧ ∀ b all_events,
      outcome (get_events_since_last_sync b all_events) w = Ok all_events.
Proof.
  intros Hold Hk Hw.
  assert (Hst : states w = ∅).
  { unfold states. rewrite Hw. simpl.
    destruct (interrupted_steps_disk m k old Hold Hk) as [-> | ->];
      done. }
  split; [done|]. intros b all_events.
  rewrite selector_outcome. unfold last_synced, cursor.
  by rewrite Hst, lookup_empty.
Qed.

Lemma restart_after_interrupted_save_witness :
  state_file (disk (sync_state_manager synced_world))
  = Some (Json (states synced_world))
  ∧ last_synced "window" synced_world = Some 3
  ∧ outcome (get_events_since_last_sync "window"
               [sample_event 1; sample_event 2; sample_event 3])
      (set_manager
         (SyncStateManager_init
            (interrupted_save 1 (sync_state_manager synced_world)))
         synced_world)
    = Ok [sample_event 1; sample_event 2; sample_event 3].
Proof.
  assert (Hold : state_file (disk (sync_state_manager synced_world))
                 = Some (Json (states synced_world)))
    by (vm_compute; reflexivity).
  split; [exact Hold|]. split; [vm_compute; reflexivity|].
  exact (proj2 (restart_after_interrupted_save
                  (sync_state_manager synced_world) 1
                  (Json (states synced_world))
                  (set_manager
                     (SyncStateManager_init
                        (interrupted_save 1 (sync_state_manager synced_world)))
                     synced_world)
                  Hold (or_introl eq_refl) eq_refl)
           "window" [sample_event 1; sample_event 2; sample_event 3]).
Defined.

(** * Further properties of [_sync_bucket] and of the pass *)

Lemma services_eq_refl w : services_eq w w.
Proof. by repeat split. Qed.

Lemma services_eq_trans w1 w2 w3 :
  services_eq w1 w2 → services_eq w2 w3 → services_eq w1 w3.
Proof.
  unfold services_eq. intros (?&?&?&?&?&?&?&?) (?&?&?&?&?&?&?&?).
  repeat split; congruence.
Qed.

Lemma collaborators_services w w' : collaborators_eq w w' → services_eq w w'.
Proof.
  unfold collaborators_eq, services_eq. intros (?&?&?&?&?&?&?&?&?).
  by repeat split.
Qed.

Lemma sent_as_complete b e a : sent_as b e a → complete e.
Proof. intros (?&?&?&?&_). unfold complete. by repeat split; eexists. Qed.

Lemma prepare_events_cases b (l : list Event) acc w :
  (∃ batch, prepare_events b l acc w = (Ok (acc ++ batch), w)
            ∧ Forall2 (sent_as b) l batch)
  ∨ (∃ key, prepare_events b l acc w = (Raise (KeyError key), w)
            ∧ Exists (fun e => ¬ complete e) l).
Proof.
  revert acc. induction l as [|e l IH]; intros acc.
  - left. exists []. simpl. rewrite app_nil_r. by split; [|constructor].
  - assert (Hinc : ∀ e', (ev_id e' = None ∨ ev_timestamp e' = None
                          ∨ ev_duration e' = None ∨ ev_data e' = None) →
                         ¬ complete e').
    { intros e' H (Hi & Ht & Hd & Hp).
      destruct H as [H|[H|[H|H]]]; rewrite H in *; by eapply is_Some_None. }
    destruct e as [[i|] [t|] [d|] [p|]]; simpl;
      try (right; eexists; split; [reflexivity|];
           apply Exists_cons_hd, Hinc; simpl; tauto).
    unfold bind at 1 2 3 4. simpl.
    destruct (IH (acc ++ [mkApiEvent i t d p b]))
      as [(batch & Hb & HF)|(key & Hk & Hex)].
    + left. exists (mkApiEvent i t d p b :: batch).
      rewrite Hb, <- app_assoc. split; [done|].
      constructor; [by repeat split|done].
    + right. exists key. split; [done|]. by apply Exists_cons_tl.
Qed.

Lemma transmit_unsynced_cases b (unsynced : list Event) w r w' :
  transmit_unsynced b unsynced w = (r, w') →
  unsynced ≠ [] →
  services_eq w w'
  ∧ ((∃ key, r = Raise (KeyError key) ∧ w' = w
             ∧ Exists (fun e => ¬ complete e) unsynced)
     ∨ (Forall complete unsynced ∧ api_client w = None ∧ w' = w
        ∧ r = Raise (AttributeError
                       "'NoneType' object has no attribute 'send_events'"))
     ∨ (is_Some (api_client w)
        ∧ ∃ batch a msg stamp,
            Forall2 (sent_as b) unsynced batch
            ∧ last batch = Some a
            ∧ transmitted w' = transmitted w ++ [batch]
            ∧ ((classify (backend w batch) = (true, msg)
                ∧ r = Ok (Z.of_nat (length unsynced))
                ∧ cursor b w'
                  = Some (success_cursor (cursor_or_new b (tick w))
                            (api_timestamp a) (api_id a)
                            (Z.of_nat (length unsynced)) stamp))
               ∨ (classify (backend w batch) = (false, msg)
                  ∧ r = Raise (Exception ("Failed to send events: " +:+ msg))
                  ∧ cursor b w'
                    = Some (failed_cursor (cursor_or_new b (tick w)) msg stamp))))).
Proof.
  unfold transmit_unsynced. intros H Hne.
  destruct (prepare_events_cases b unsynced [] w)
    as [(batch & Hb & HF)|(key & Hk & Hex)]; simpl in *.
  2:{ rewrite (bind_raise _ _ _ _ _ Hk) in H. simplify_eq.
      split; [apply services_eq_refl|]. left. by exists key. }
  assert (Hall : Forall complete unsynced).
  { apply Forall_forall. intros e He.
    destruct (proj1 (list_elem_of_lookup _ _) He) as [i Hi].
    destruct (Forall2_lookup_l _ _ _ _ _ HF Hi) as (a & _ & Ha).
    by eapply sent_as_complete. }
  rewrite (bind_ok _ _ _ _ _ Hb) in H. unfold bind at 1, get_world in H.
  simpl in H.
  destruct (api_client w) as [c|] eqn:Hc.
  2:{ unfold raise in H. simplify_eq.
      split; [apply services_eq_refl|]. right. left. by repeat split. }
  rewrite (bind_ok _ _ _ _ _ (send_events_spec batch w)) in H.
  set (w1 := set_transmitted (transmitted w ++ [batch]) (tick w)) in *.
  assert (Hw1 : services_eq w w1) by (by repeat split).
  pose proof (Forall2_last _ _ _ HF) as Hlast.
  destruct (last unsynced) as [e|] eqn:Hle; [|by apply last_None in Hle].
  destruct (last batch) as [a|] eqn:Hla; inversion Hlast as [? ? Hs|]; subst.
  destruct Hs as (Hi & Ht & _).
  destruct (classify (backend w batch)) as [ok msg] eqn:Hcl. simpl in H.
  destruct ok.
  - rewrite Ht, Hi in H.
    unfold bind at 1 2, subscript, ret in H. simpl in H.
    destruct (update_sync_success_spec b (api_timestamp a) (api_id a)
                (Z.of_nat (length unsynced)) w1)
      as (stamp & Ho & Hcur & Hoth & Hf).
    unfold outcome, exec in *.
    destruct (update_sync_success b (api_timestamp a) (api_id a)
                (Z.of_nat (length unsynced)) w1) as [r2 w2] eqn:Hu.
    simpl in *. subst r2. unfold bind in H. rewrite Hu in H. simplify_eq.
    split.
    { eapply services_eq_trans; [exact Hw1|by apply collaborators_services]. }
    right. right. split; [by eexists|].
    exists batch, a, msg, stamp. split; [done|]. split; [done|].
    split; [by destruct Hf as (_&_&_&_&_&_&_&<-&_)|].
    left. by repeat split.
  - destruct (update_sync_failure_spec b msg 0 w1)
      as (stamp & Ho & Hcur & Hoth & Hf).
    unfold outcome, exec in *.
    destruct (update_sync_failure b msg 0 w1) as [r2 w2] eqn:Hu.
    simpl in *. subst r2. unfold bind, raise in H. rewrite Hu in H.
    simplify_eq.
    split.
    { eapply services_eq_trans; [exact Hw1|by apply collaborators_services]. }
    right. right. split; [by eexists|].
    exists batch, a, msg, stamp. split; [done|]. split; [done|].
    split; [by destruct Hf as (_&_&_&_&_&_&_&<-&_)|].
    right. by repeat split.
Qed.

Lemma sync_bucket_cases b w r w' all_events :
  _sync_bucket b w = (r, w') →
  db_reachable (db_module w) = true →
  db_events (db_module w) b = Some all_events →
  services_eq w w'
  ∧ ((events_after (last_synced b w) all_events = []
      ∧ r = Ok 0
      ∧ transmitted w' = transmitted w
      ∧ cursor b w' = Some (cursor_or_new b w))
     ∨ (∃ key, r = Raise (KeyError key)
               ∧ Exists (fun e => ¬ complete e)
                   (events_after (last_synced b w) all_events)
               ∧ transmitted w' = transmitted w
               ∧ cursor b w' = Some (cursor_or_new b w))
     ∨ (events_after (last_synced b w) all_events ≠ []
        ∧ Forall complete (events_after (last_synced b w) all_events)
        ∧ api_client w = None
        ∧ r = Raise (AttributeError
                       "'NoneType' object has no attribute 'send_events'")
        ∧ transmitted w' = transmitted w
        ∧ cursor b w' = Some (cursor_or_new b w))
     ∨ (events_after (last_synced b w) all_events ≠ []
        ∧ is_Some (api_client w)
        ∧ ∃ batch a msg stamp,
            Forall2 (sent_as b)
              (events_after (last_synced b w) all_events) batch
            ∧ last batch = Some a
            ∧ transmitted w' = transmitted w ++ [batch]
            ∧ ((classify (backend w batch) = (true, msg)
                ∧ r = Ok (Z.of_nat
                            (length (events_after (last_synced b w)
                                       all_events)))
                ∧ cursor b w'
                  = Some (success_cursor (cursor_or_new b w)
                            (api_timestamp a) (api_id a)
                            (Z.of_nat
                               (length (events_after (last_synced b w)
                                          all_events)))
                            stamp))
               ∨ (classify (backend w batch) = (false, msg)
                  ∧ r = Raise (Exception ("Failed to send events: " +:+ msg))
                  ∧ cursor b w'
                    = Some (failed_cursor (cursor_or_new b w) msg stamp))))).
Proof.
  rewrite sync_bucket_stages. intros H Hr He.
  pose proof (fetch_unsynced_spec b w) as Hfetch. rewrite Hr, He in Hfetch.
  destruct Hfetch as (w1 & Hf & Hc & _ & _ & Hcol).
  rewrite (bind_ok _ _ _ _ _ Hf) in H.
  assert (Hnew : cursor_or_new b (tick w1) = cursor_or_new b w).
  { unfold cursor_or_new at 1.
    change (cursor b (tick w1)) with (cursor b w1). by rewrite Hc. }
  pose proof (collaborators_services _ _ Hcol) as Hsv.
  assert (Htr : transmitted w1 = transmitted w)
    by (by destruct Hcol as (_&_&_&_&_&_&_&<-&_)).
  assert (Hbk : backend w1 = backend w)
    by (by destruct Hcol as (_&_&_&_&_&_&<-&_)).
  assert (Hac : api_client w1 = api_client w)
    by (by destruct Hcol as (_&_&_&_&<-&_)).
  remember (events_after (last_synced b w) all_events) as unsynced eqn:Hu.
  destruct unsynced as [|e0 rest].
  - unfold ret in H. simplify_eq. split; [done|]. left. by repeat split.
  - assert (Hne : e0 :: rest ≠ []) by done.
    destruct (transmit_unsynced_cases b (e0 :: rest) w1 r w' H Hne)
      as (Hsv' & Hcase).
    split; [by eapply services_eq_trans|].
    destruct Hcase as [(key & -> & -> & Hex)
                      |[(Hall & Hnone & -> & ->)
                       |(Hsome & batch & a & msg & stamp & HF & Hla & Ht
                         & Hres)]].
    + right. left. exists key. by repeat split.
    + right. right. left. rewrite Hac in Hnone. by repeat split.
    + right. right. right. rewrite Hac in Hsome. split; [done|].
      split; [done|]. exists batch, a, msg, stamp.
      rewrite Hnew, Hbk, Htr in *. by repeat split.
Qed.

Lemma complete_not_incomplete (l : list Event) :
  Forall complete l → Exists (fun e => ¬ complete e) l → False.
Proof.
  rewrite Forall_forall, Exists_exists. intros Hall (e & He & Hn).
  by apply Hn, Hall.
Qed.

Lemma sent_all_complete b (l : list Event) batch :
  Forall2 (sent_as b) l batch → Forall complete l.
Proof.
  intros HF. apply Forall_forall. intros e He.
  destruct (proj1 (list_elem_of_lookup _ _) He) as [i Hi].
  destruct (Forall2_lookup_l _ _ _ _ _ HF Hi) as (a & _ & Ha).
  by eapply sent_as_complete.
Qed.

Lemma classify_accepts r :
  (classify r).1 = true ↔ ∃ text, r = Http 200 text.
Proof.
  split.
  - destruct r as [code text|detail]; simpl; [|done].
    destruct (Z.eqb_spec code 200) as [->|Hne]; [by eauto|].
    destruct (code =? 401); [done|]. by destruct (code =? 429).
  - by intros [text ->].
Qed.

(** X7: [_sync_bucket] sends at most one batch, and the batch is exactly
    what the selector returned, in the same order: every dictionary sent
    carries the bucket's id and the id, timestamp, duration and data of its
    event, and no event with an id at or below the cursor's
    [last_sync_event_id] is ever sent. *)
Theorem sync_bucket_sends_only_unsynced (b : string) (w w' : World)
    (r : Result Z) (all_events : list Event) :
  _sync_bucket b w = (r, w') →
  db_reachable (db_module w) = true →
  db_events (db_module w) b = Some all_events →
  ∃ new,
    transmitted w' = transmitted w ++ new
    ∧ (length new ≤ 1)%nat
    ∧ ∀ batch, batch ∈ new →
        Forall2 (sent_as b) (events_after (last_synced b w) all_events) batch
        ∧ ∀ a, a ∈ batch →
            api_bucket_id a = b
            ∧ (∃ e, e ∈ all_events ∧ sent_as b e a)
            ∧ ∀ k, last_synced b w = Some k → k < api_id a.
Proof.
  intros H Hr He.
  destruct (sync_bucket_cases b w r w' all_events H Hr He) as (_ & Hcase).
  destruct Hcase as [(_ & _ & Ht & _)
                    |[(key & _ & _ & Ht & _)
                     |[(_ & _ & _ & _ & Ht & _)
                      |(_ & _ & batch & a0 & msg & stamp & HF & _ & Ht & _)]]];
    try (exists []; rewrite app_nil_r; split; [done|]; split; [simpl; lia|];
         by intros batch ?%elem_of_nil).
  exists [batch]. split; [done|]. split; [simpl; lia|].
  intros batch' ->%list_elem_of_singleton. split; [done|].
  intros a Ha.
  destruct (proj1 (list_elem_of_lookup _ _) Ha) as [i Hi].
  destruct (Forall2_lookup_r _ _ _ _ _ HF Hi) as (e & Hei & Hs).
  assert (Hin : e ∈ events_after (last_synced b w) all_events)
    by (apply list_elem_of_lookup; eauto).
  split; [by destruct Hs as (_&_&_&_&?)|]. split.
  - exists e. split; [|done].
    destruct (last_synced b w); simpl in Hin; [|done].
    by apply list_elem_of_filter in Hin as [_ ?].
  - intros k Hk. rewrite Hk in Hin. simpl in Hin.
    apply list_elem_of_filter in Hin as [Hlt _].
    destruct Hs as (Hid & _). unfold event_get_id in Hlt.
    by rewrite Hid in Hlt.
Qed.

Lemma sync_bucket_sends_only_unsynced_witness :
  db_reachable (db_module synced_world) = true
  ∧ ∃ new,
      transmitted (exec (_sync_bucket "afk") synced_world)
      = transmitted synced_world ++ new
      ∧ (length new ≤ 1)%nat.
Proof.
  assert (Hr : db_reachable (db_module synced_world) = true)
    by (vm_compute; reflexivity).
  assert (He : db_events (db_module synced_world) "afk"
               = Some [sample_event 1; sample_event 2])
    by (vm_compute; reflexivity).
  split; [exact Hr|].
  destruct (sync_bucket_sends_only_unsynced "afk" synced_world
              (exec (_sync_bucket "afk") synced_world)
              (outcome (_sync_bucket "afk") synced_world)
              [sample_event 1; sample_event 2]
              (surjective_pairing _) Hr He)
    as (new & Ht & Hl & _).
  exists new. split; assumption.
Defined.

(** X8: with complete events waiting and an API client in place, the
    outcome of [_sync_bucket] is decided by the backend's answer to the one
    batch it sends.  The answer counts as success exactly when it is HTTP
    200: then the call returns the number of events sent and the cursor
    moves to the last event of the batch with status ['success'].  Any
    other answer, a network failure included, makes the call raise
    ["Failed to send events: ..."] with the client's message, which is
    also stored in [last_sync_error], with status ['failed'] and the
    position unchanged. *)
Theorem sync_bucket_follows_backend (b : string) (w w' : World)
    (r : Result Z) (all_events : list Event) :
  _sync_bucket b w = (r, w') →
  db_reachable (db_module w) = true →
  db_events (db_module w) b = Some all_events →
  events_after (last_synced b w) all_events ≠ [] →
  Forall complete (events_after (last_synced b w) all_events) →
  is_Some (api_client w) →
  ∃ batch a,
    Forall2 (sent_as b) (events_after (last_synced b w) all_events) batch
    ∧ last batch = Some a
    ∧ transmitted w' = transmitted w ++ [batch]
    ∧ ((classify (backend w batch)).1 = true
       ↔ ∃ text, backend w batch = Http 200 text)
    ∧ if (classify (backend w batch)).1
      then r = Ok (Z.of_nat
                     (length (events_after (last_synced b w) all_events)))
           ∧ last_synced b w' = Some (api_id a)
           ∧ (last_sync_status <$> cursor b w') = Some "success"
           ∧ (cursor b w' ≫= last_sync_error) = None
      else r = Raise (Exception ("Failed to send events: "
                                 +:+ (classify (backend w batch)).2))
           ∧ last_synced b w' = last_synced b w
           ∧ total_synced b w' = total_synced b w
           ∧ (last_sync_status <$> cursor b w') = Some "failed"
           ∧ (cursor b w' ≫= last_sync_error)
             = Some (classify (backend w batch)).2.
Proof.
  intros H Hr He Hne Hall Hclient.
  destruct (sync_bucket_cases b w r w' all_events H Hr He) as (_ & Hcase).
  destruct Hcase as [(Hnil & _)
                    |[(key & _ & Hex & _)
                     |[(_ & _ & Hnone & _)
                      |(_ & _ & batch & a & msg & stamp & HF & Hla & Ht
                        & Hres)]]].
  - done.
  - by destruct (complete_not_incomplete _ Hall Hex).
  - rewrite Hnone in Hclient. by destruct Hclient.
  - exists batch, a. split; [done|]. split; [done|]. split; [done|].
    split; [apply classify_accepts|].
    destruct Hres as [(Hcl & -> & Hcur)|(Hcl & -> & Hcur)];
      rewrite Hcl; simpl; unfold last_synced, total_synced; rewrite Hcur;
      simpl.
    + by repeat split.
    + rewrite cursor_or_new_last, cursor_or_new_total. by repeat split.
Qed.

Lemma sync_bucket_follows_backend_witness :
  db_reachable (db_module (exec _ensure_authenticated fresh_world)) = true
  ∧ is_Some (api_client (exec _ensure_authenticated fresh_world))
  ∧ ∃ batch a,
      last batch = Some a
      ∧ transmitted (exec (_sync_bucket "afk")
                          (exec _ensure_authenticated fresh_world))
        = transmitted (exec _ensure_authenticated fresh_world) ++ [batch].
Proof.
  assert (Hc : is_Some (api_client (exec _ensure_authenticated fresh_world)))
    by (vm_compute; eauto).
  split; [reflexivity|]. split; [exact Hc|].
  assert (Hall : Forall complete
                   (events_after
                      (last_synced "afk"
                         (exec _ensure_authenticated fresh_world))
                      [sample_event 1; sample_event 2])).
  { repeat constructor; simpl; eauto. }
  destruct (sync_bucket_follows_backend "afk"
              (exec _ensure_authenticated fresh_world)
              (exec (_sync_bucket "afk")
                    (exec _ensure_authenticated fresh_world))
              (outcome (_sync_bucket "afk")
                       (exec _ensure_authenticated fresh_world))
              [sample_event 1; sample_event 2]
              (surjective_pairing _) eq_refl eq_refl
              ltac:(discriminate) Hall Hc)
    as (batch & a & _ & Hla & Ht & _).
  by exists batch, a.
Defined.

(** X9: an event dictionary that lacks one of the keys ['id'],
    ['timestamp'], ['duration'], ['data'] among the unsynced events makes
    [_sync_bucket] raise [KeyError] while the batch is being built:
    nothing is sent, and no failure is recorded, the cursor being what
    [get_or_create_sync_state] found or made. *)
Theorem sync_bucket_missing_key (b : string) (w w' : World)
    (r : Result Z) (all_events : list Event) :
  _sync_bucket b w = (r, w') →
  db_reachable (db_module w) = true →
  db_events (db_module w) b = Some all_events →
  Exists (fun e => ¬ complete e) (events_after (last_synced b w) all_events) →
  (∃ key, r = Raise (KeyError key))
  ∧ transmitted w' = transmitted w
  ∧ cursor b w' = Some (cursor_or_new b w)
  ∧ last_synced b w' = last_synced b w.
Proof.
  intros H Hr He Hex.
  destruct (sync_bucket_cases b w r w' all_events H Hr He) as (_ & Hcase).
  destruct Hcase as [(Hnil & _)
                    |[(key & -> & _ & Ht & Hc)
                     |[(_ & Hall & _)
                      |(_ & _ & batch & a & msg & stamp & HF & _)]]].
  - rewrite Hnil in Hex. by apply Exists_nil in Hex.
  - split; [by eexists|]. split; [done|]. split; [done|].
    unfold last_synced at 1. rewrite Hc. simpl. apply cursor_or_new_last.
  - by destruct (complete_not_incomplete _ Hall Hex).
  - by destruct (complete_not_incomplete _ (sent_all_complete _ _ _ HF) Hex).
Qed.

Lemma sync_bucket_missing_key_witness :
  db_reachable (db_module incomplete_world) = true
  ∧ (∃ key, outcome (_sync_bucket "window") incomplete_world
            = Raise (KeyError key))
  ∧ transmitted (exec (_sync_bucket "window") incomplete_world)
    = transmitted incomplete_world.
Proof.
  split; [reflexivity|].
  assert (Hex : Exists (fun e => ¬ complete e)
                  (events_after (last_synced "window" incomplete_world)
                     [sample_event 1; anonymous_event])).
  { apply Exists_cons_tl, Exists_cons_hd. intros ([i Hi] & _).
    discriminate Hi. }
  destruct (sync_bucket_missing_key "window" incomplete_world
              (exec (_sync_bucket "window") incomplete_world)
              (outcome (_sync_bucket "window") incomplete_world)
              [sample_event 1; anonymous_event]
              (surjective_pairing _) eq_refl eq_refl Hex)
    as (Hk & Ht & _).
  by split.
Defined.

(** X10: a bucket with a cursor and nothing new is a no-op: [_sync_bucket]
    returns 0 and leaves the world as it was, except that the database
    connection is closed.  No cursor is written, nothing is sent and the
    clock is not read. *)
Theorem sync_bucket_nothing_new (b : string) (w : World) (C : SyncState)
    (all_events : list Event) :
  db_reachable (db_module w) = true →
  db_events (db_module w) b = Some all_events →
  cursor b w = Some C →
  events_after (last_sync_event_id C) all_events = [] →
  _sync_bucket b w = (Ok 0, set_connection false w).
Proof.
  intros Hr He Hc Hnil.
  rewrite sync_bucket_stages.
  assert (Hf : fetch_unsynced b w = (Ok [], set_connection false w)).
  { unfold fetch_unsynced, with_db.
    assert (Hconn : connect w = (Ok tt, set_connection true w)).
    { unfold connect, bind, get_world, modify. by rewrite Hr. }
    rewrite (bind_ok _ _ _ _ _ Hconn). unfold finally.
    assert (Hget : get_events b (set_connection true w)
                   = (Ok all_events, set_connection true w)).
    { unfold get_events, bind, get_world, ret. simpl. by rewrite He. }
    rewrite (bind_ok _ _ _ _ _ Hget).
    unfold get_events_since_last_sync.
    rewrite (bind_ok _ _ _ _ _
               (get_or_create_existing b C (set_connection true w) Hc)).
    destruct (last_sync_event_id C) as [k|]; simpl in *.
    - by rewrite collect_unsynced_filter, Hnil.
    - by rewrite Hnil. }
  by rewrite (bind_ok _ _ _ _ _ Hf).
Qed.

Lemma sync_bucket_nothing_new_witness :
  db_reachable (db_module synced_world) = true
  ∧ _sync_bucket "window" synced_world
    = (Ok 0, set_connection false synced_world).
Proof.
  split; [reflexivity|].
  apply (sync_bucket_nothing_new "window" synced_world
           (mkSyncState "window" (Some "2025-08-22T11:59:00+00:00") (Some 3)
              3 "success" None "2025-08-22T12:00:00+00:00"
              "2025-08-22T12:00:00+00:00")
           [sample_event 1; sample_event 2; sample_event 3]).
  - reflexivity.
  - reflexivity.
  - vm_compute. reflexivity.
  - reflexivity.
Defined.

Lemma with_db_cases {A : Type} (body : M A) (w : World) :
  if db_reachable (db_module w)
  then connection (db_module (exec (with_db body) w)) = false
       ∧ outcome (with_db body) w = outcome body (set_connection true w)
  else with_db body w
       = (Raise (ConnectionError ("Failed to connect to database: "
                                  +:+ db_error (db_module w))), w).
Proof.
  unfold with_db. destruct (db_reachable (db_module w)) eqn:Hr.
  - assert (Hconn : connect w = (Ok tt, set_connection true w)).
    { unfold connect, bind, get_world, modify. by rewrite Hr. }
    unfold exec, outcome. rewrite (bind_ok _ _ _ _ _ Hconn). unfold finally.
    by destruct (body (set_connection true w)).
  - unfold connect, bind, get_world, raise. by rewrite Hr.
Qed.

Lemma get_or_create_db b w :
  db_module (exec (get_or_create_sync_state b) w) = db_module w.
Proof.
  unfold exec, get_or_create_sync_state, get_sync_state, bind at 1,
    get_world, ret. simpl.
  by destruct (states w !! b).
Qed.

Lemma update_sync_success_db b ts k n w :
  db_module (exec (update_sync_success b ts k n) w) = db_module w.
Proof.
  pose proof (get_or_create_db b w) as Hdb.
  destruct (get_or_create_spec b w) as (w1 & Hg & _).
  unfold exec in *. rewrite Hg in Hdb. simpl in Hdb.
  unfold update_sync_success. rewrite (bind_ok _ _ _ _ _ Hg).
  by unfold _save_sync_states, bind, utc_now_iso, modify.
Qed.

Lemma update_sync_failure_db b msg n w :
  db_module (exec (update_sync_failure b msg n) w) = db_module w.
Proof.
  pose proof (get_or_create_db b w) as Hdb.
  destruct (get_or_create_spec b w) as (w1 & Hg & _).
  unfold exec in *. rewrite Hg in Hdb. simpl in Hdb.
  unfold update_sync_failure. rewrite (bind_ok _ _ _ _ _ Hg).
  by unfold _save_sync_states, bind, utc_now_iso, modify.
Qed.

Lemma transmit_unsynced_db b (l : list Event) w :
  db_module (exec (transmit_unsynced b l) w) = db_module w.
Proof.
  unfold exec, transmit_unsynced.
  destruct (prepare_events_cases b l [] w)
    as [(batch & Hb & _)|(key & Hk & _)]; simpl in *.
  2:{ by rewrite (bind_raise _ _ _ _ _ Hk). }
  rewrite (bind_ok _ _ _ _ _ Hb). unfold bind at 1, get_world. simpl.
  destruct (api_client w); [|done].
  rewrite (bind_ok _ _ _ _ _ (send_events_spec batch w)).
  set (w1 := set_transmitted (transmitted w ++ [batch]) (tick w)).
  destruct (classify (backend w batch)) as [[|] msg]; simpl.
  - destruct (last l ≫= ev_timestamp) as [ts|]; [|done].
    destruct (last l ≫= ev_id) as [k|]; [|done].
    unfold bind at 1 2, subscript, ret. simpl.
    pose proof (update_sync_success_db b ts k (Z.of_nat (length l)) w1) as H.
    unfold exec in H. unfold bind.
    by destruct (update_sync_success b ts k (Z.of_nat (length l)) w1)
      as [[[]|e] w2].
  - pose proof (update_sync_failure_db b msg 0 w1) as H.
    unfold exec in H. unfold bind, raise.
    by destruct (update_sync_failure b msg 0 w1) as [[[]|e] w2].
Qed.

Lemma sync_bucket_closes_connection b w :
  db_reachable (db_module w) = true →
  connection (db_module (exec (_sync_bucket b) w)) = false.
Proof.
  intros Hr. rewrite sync_bucket_stages.
  pose proof (with_db_cases
                (all_events <- get_events b ;;
                 get_events_since_last_sync b all_events) w) as Hw.
  rewrite Hr in Hw. destruct Hw as [Hconn _].
  fold (fetch_unsynced b) in Hconn. unfold exec in *. unfold bind.
  destruct (fetch_unsynced b w) as [[unsynced|e] w1]; simpl in *; [|done].
  destruct unsynced as [|e0 rest]; [done|].
  pose proof (transmit_unsynced_db b (e0 :: rest) w1) as Hdb.
  unfold exec in Hdb. by rewrite Hdb.
Qed.

(** X11: [with self.db_module:] never leaves the connection open.  When
    the database can be opened the connection is closed on the way out,
    whether the body returned or raised, and whatever the body did; when
    it cannot, [ConnectionError] is raised and the body is not run.  As
    [_sync_bucket] uses the block itself, the connection is closed after
    each bucket although the block of [sync_all_buckets] is still
    active. *)
Theorem with_db_closes_connection {A : Type} (body : M A) (b : string)
    (w : World) :
  if db_reachable (db_module w)
  then connection (db_module (exec (with_db body) w)) = false
       ∧ outcome (with_db body) w = outcome body (set_connection true w)
       ∧ connection (db_module (exec (_sync_bucket b) w)) = false
  else with_db body w
       = (Raise (ConnectionError ("Failed to connect to database: "
                                  +:+ db_error (db_module w))), w).
Proof.
  pose proof (with_db_cases body w) as H.
  pose proof (sync_bucket_closes_connection b w) as Hb.
  destruct (db_reachable (db_module w)); [|done].
  destruct H as [H1 H2]. split; [done|]. split; [done|]. by apply Hb.
Qed.

Lemma ensure_authenticated_cases w :
  match is_authenticated (oauth_manager w), api_client w,
        stored_access_token w with
  | true, None, Some token =>
      _ensure_authenticated w = (Ok true, with_client token w)
  | _, _, _ => _ensure_authenticated w = (Ok false, w)
  end.
Proof.
  unfold _ensure_authenticated, stored_access_token, bind, get_world, ret,
    modify. simpl.
  destruct (is_authenticated (oauth_manager w)); simpl; [|done].
  destruct (api_client w); [done|].
  destruct (load_tokens (oauth_manager w)) as [tokens|]; simpl; [|done].
  by destruct (tokens !! "access_token").
Qed.

(** X12: [_ensure_authenticated] answers [True] in one situation only:
    the OAuth manager reports a valid token, no API client exists yet and
    the token storage holds an access token.  It then builds the client
    from the base URL without its trailing slashes and that token, and
    changes nothing else.  In every other situation it answers [False]
    and changes nothing; it never raises. *)
Theorem ensure_authenticated_spec (w : World) :
  (outcome _ensure_authenticated w = Ok true
   ↔ is_authenticated (oauth_manager w) = true
     ∧ api_client w = None
     ∧ is_Some (stored_access_token w))
  ∧ (outcome _ensure_authenticated w = Ok false
     ∨ outcome _ensure_authenticated w = Ok true)
  ∧ match outcome _ensure_authenticated w with
    | Ok true =>
        ∃ token,
          stored_access_token w = Some token
          ∧ exec _ensure_authenticated w = with_client token w
          ∧ api_client (exec _ensure_authenticated w)
            = Some (mkAPIClient (rstrip_slash (server_base_url w)) token)
    | _ => exec _ensure_authenticated w = w
    end.
Proof.
  pose proof (ensure_authenticated_cases w) as H.
  unfold outcome, exec.
  destruct (is_authenticated (oauth_manager w));
    destruct (api_client w);
    destruct (stored_access_token w) as [token|];
    rewrite H; simpl;
    (split; [split; [intros [=] || (intros _; by repeat split; eauto)
                    |intros (Ha & Hc & Ht);
                     try done; try (by destruct Ht)]|]);
    (split; [by auto|]); try done.
  by exists token.
Qed.

Lemma sync_bucket_services b w r w' :
  _sync_bucket b w = (r, w') → services_eq w w'.
Proof.
  rewrite sync_bucket_stages. intros H.
  pose proof (fetch_unsynced_spec b w) as Hfetch.
  destruct (db_reachable (db_module w)).
  2:{ destruct Hfetch as [e He]. rewrite (bind_raise _ _ _ _ _ He) in H.
      simplify_eq. apply services_eq_refl. }
  destruct (db_events (db_module w) b) as [all_events|].
  2:{ destruct Hfetch as [e He]. rewrite (bind_raise _ _ _ _ _ He) in H.
      simplify_eq. by repeat split. }
  destruct Hfetch as (w1 & Hf & _ & _ & _ & Hcol).
  rewrite (bind_ok _ _ _ _ _ Hf) in H.
  pose proof (collaborators_services _ _ Hcol) as Hsv.
  destruct (events_after (last_synced b w) all_events) as [|e0 rest].
  - unfold ret in H. by simplify_eq.
  - eapply services_eq_trans; [exact Hsv|].
    by apply (transmit_unsynced_cases b (e0 :: rest) w1 r w' H).
Qed.

Lemma sync_buckets_services buckets acc w :
  services_eq w (exec (sync_buckets buckets acc) w).
Proof.
  revert acc w. induction buckets as [|b rest IH]; intros acc w.
  - apply services_eq_refl.
  - unfold exec. destruct (_sync_bucket b w) as [[n|e] w1] eqn:Hb.
    + rewrite (sync_buckets_ok _ _ _ _ _ _ Hb).
      eapply services_eq_trans; [by eapply sync_bucket_services|apply IH].
    + rewrite (sync_buckets_raise _ _ _ _ _ _ Hb).
      eapply services_eq_trans; [by eapply sync_bucket_services|apply IH].
Qed.

(** The four ways a pass can go once the token question is settled. *)
Lemma sync_all_buckets_cases w :
  match outcome _ensure_authenticated w with
  | Ok true =>
      let w1 := exec _ensure_authenticated w in
      if db_reachable (db_module w)
      then match db_buckets (db_module w) with
           | Some buckets =>
               ∃ acc w2,
                 sync_buckets buckets (mkPass [] 0 0) (set_connection true w1)
                 = (Ok acc, w2)
                 ∧ sync_all_buckets w
                   = (Ok (mkSyncResult
                            (bool_decide (length (pass_errors acc) = 0%nat))
                            (pass_events acc) (pass_buckets acc)
                            (pass_errors acc)
                            (now (exec (_update_sync_stats
                                          (bool_decide
                                             (length (pass_errors acc)
                                              = 0%nat))
                                          (pass_events acc))
                                       (disconnect w2)))),
                      tick (exec (_update_sync_stats
                                    (bool_decide
                                       (length (pass_errors acc) = 0%nat))
                                    (pass_events acc))
                                 (disconnect w2)))
           | None =>
               sync_all_buckets w
               = (Ok (mkSyncResult false 0 0
                        ["Synchronization failed: Error getting buckets: "
                         +:+ db_error (db_module w)]
                        (now w1)),
                  tick (set_connection false w1))
           end
      else sync_all_buckets w
           = (Ok (mkSyncResult false 0 0
                    ["Synchronization failed: Failed to connect to database: "
                     +:+ db_error (db_module w)]
                    (now w1)),
              tick w1)
  | _ =>
      sync_all_buckets w
      = (Ok (mkSyncResult false 0 0 ["Authentication required"] (now w)),
         tick w)
  end.
Proof.
  pose proof (ensure_authenticated_cases w) as Hcases.
  assert (Hauth : ∃ ok w1, _ensure_authenticated w = (Ok ok, w1)
                           ∧ (ok = false → w1 = w)
                           ∧ db_module w1 = db_module w).
  { destruct (is_authenticated (oauth_manager w));
      destruct (api_client w);
      destruct (stored_access_token w) as [token|];
      try (exists false, w; by repeat split).
    exists true, (with_client token w). by repeat split. }
  destruct Hauth as (ok & w1 & Hrun & Hfalse & Hdb).
  unfold outcome, exec. rewrite Hrun. simpl.
  destruct ok.
  2:{ rewrite (Hfalse eq_refl) in Hrun.
      unfold sync_all_buckets, try_except.
      by rewrite (bind_ok _ _ _ _ _ Hrun). }
  unfold sync_all_buckets, try_except.
  rewrite (bind_ok _ _ _ _ _ Hrun). simpl.
  destruct (db_reachable (db_module w)) eqn:Hr.
  - assert (Hconn : connect w1 = (Ok tt, set_connection true w1)).
    { unfold connect, bind, get_world, modify. by rewrite Hdb, Hr. }
    destruct (db_buckets (db_module w)) as [buckets|] eqn:Hb.
    + destruct (sync_buckets_spec buckets (mkPass [] 0 0)
                  (set_connection true w1))
        as (acc & w2 & Hloop & _).
      exists acc, w2. split; [done|].
      assert (Hget : get_buckets (set_connection true w1)
                     = (Ok buckets, set_connection true w1)).
      { unfold get_buckets, bind, get_world, ret. simpl.
        by rewrite Hdb, Hb. }
      assert (Hwith : with_db (buckets <- get_buckets ;;
                               sync_buckets buckets (mkPass [] 0 0)) w1
                      = (Ok acc, disconnect w2)).
      { unfold with_db. rewrite (bind_ok _ _ _ _ _ Hconn). unfold finally.
        by rewrite (bind_ok _ _ _ _ _ Hget), Hloop. }
      by rewrite (bind_ok _ _ _ _ _ Hwith).
    + assert (Hwith : with_db (buckets <- get_buckets ;;
                               sync_buckets buckets (mkPass [] 0 0)) w1
                      = (Raise (RuntimeError
                                  ("Error getting buckets: "
                                   +:+ db_error (db_module w))),
                         set_connection false w1)).
      { unfold with_db. rewrite (bind_ok _ _ _ _ _ Hconn). unfold finally.
        unfold get_buckets, bind, get_world, raise. simpl.
        by rewrite Hdb, Hb. }
      by rewrite (bind_raise _ _ _ _ _ Hwith).
  - assert (Hwith : with_db (buckets <- get_buckets ;;
                             sync_buckets buckets (mkPass [] 0 0)) w1
                    = (Raise (ConnectionError
                                ("Failed to connect to database: "
                                 +:+ db_error (db_module w))),
                       w1)).
    { unfold with_db, connect, bind, get_world, raise. by rewrite Hdb, Hr. }
    by rewrite (bind_raise _ _ _ _ _ Hwith).
Qed.

Lemma pass_aborts_with_client w c :
  api_client w = Some c →
  sync_all_buckets w
  = (Ok (mkSyncResult false 0 0 ["Authentication required"] (now w)), tick w).
Proof.
  intros Hc. pose proof (sync_all_buckets_cases w) as H.
  pose proof (ensure_authenticated_cases w) as Ha. rewrite Hc in Ha.
  assert (Hf : _ensure_authenticated w = (Ok false, w)).
  { destruct (is_authenticated (oauth_manager w)); [|done].
    by destruct (stored_access_token w). }
  unfold outcome in H. by rewrite Hf in H.
Qed.

Lemma update_sync_stats_frame ok n w :
  api_client (exec (_update_sync_stats ok n) w) = api_client w
  ∧ sync_state_manager (exec (_update_sync_stats ok n) w)
    = sync_state_manager w
  ∧ transmitted (exec (_update_sync_stats ok n) w) = transmitted w.
Proof. by destruct ok. Qed.

Lemma pass_keeps_client w :
  outcome _ensure_authenticated w = Ok true →
  is_Some (api_client (exec sync_all_buckets w)).
Proof.
  intros Hauth. pose proof (sync_all_buckets_cases w) as H.
  rewrite Hauth in H. simpl in H.
  pose proof (ensure_authenticated_cases w) as Ha.
  assert (Hc : is_Some (api_client (exec _ensure_authenticated w))).
  { unfold outcome in Hauth. unfold exec.
    destruct (is_authenticated (oauth_manager w));
      destruct (api_client w);
      destruct (stored_access_token w) as [token|];
      rewrite Ha in *; simpl in *; try discriminate.
    by eexists. }
  destruct (db_reachable (db_module w)).
  - destruct (db_buckets (db_module w)) as [buckets|].
    + destruct H as (acc & w2 & Hloop & Hrun).
      unfold exec at 1. rewrite Hrun. simpl.
      pose proof (sync_buckets_services buckets (mkPass [] 0 0)
                    (set_connection true (exec _ensure_authenticated w)))
        as Hsv.
      unfold exec at 2 in Hsv. rewrite Hloop in Hsv. simpl in Hsv.
      destruct Hsv as (Hcl & _). simpl in Hcl.
      destruct (bool_decide (length (pass_errors acc) = 0%nat)); simpl;
        by rewrite <- Hcl.
    + unfold exec at 1. by rewrite H.
  - unfold exec at 1. by rewrite H.
Qed.

(** X13: once an API client exists, [_ensure_authenticated] answers
    [False], so [sync_all_buckets] aborts with ["Authentication
    required"] whatever the token state; and a pass that authenticated
    leaves the client it built in place.  Hence of two passes run one
    after the other on the same manager, the second syncs nothing and
    reports ["Authentication required"]. *)
Theorem second_pass_never_authenticates (w : World) :
  (∀ c, api_client w = Some c →
        sync_all_buckets w
        = (Ok (mkSyncResult false 0 0 ["Authentication required"] (now w)),
           tick w))
  ∧ (outcome _ensure_authenticated w = Ok true →
     is_Some (api_client (exec sync_all_buckets w))
     ∧ sync_all_buckets (exec sync_all_buckets w)
       = (Ok (mkSyncResult false 0 0 ["Authentication required"]
                (now (exec sync_all_buckets w))),
          tick (exec sync_all_buckets w))).
Proof.
  split; [intros c; apply pass_aborts_with_client|].
  intros Hauth. destruct (pass_keeps_client w Hauth) as [c Hc].
  split; [by eexists|]. by eapply pass_aborts_with_client.
Qed.

Lemma second_pass_never_authenticates_witness :
  outcome _ensure_authenticated fresh_world = Ok true
  ∧ sync_all_buckets (exec sync_all_buckets fresh_world)
    = (Ok (mkSyncResult false 0 0 ["Authentication required"]
             (now (exec sync_all_buckets fresh_world))),
       tick (exec sync_all_buckets fresh_world)).
Proof.
  assert (H : outcome _ensure_authenticated fresh_world = Ok true)
    by reflexivity.
  split; [exact H|].
  exact (proj2 (proj2 (second_pass_never_authenticates fresh_world) H)).
Defined.

(** X14: when the token is in order but the database cannot be opened, or
    [get_buckets] fails, the outer handler of [sync_all_buckets] turns
    the exception into a result with [success = False], zero counts and
    the single error ["Synchronization failed: ..."].  This path returns
    before [_update_sync_stats]: the failed pass is not counted in the
    statistics, and no cursor is touched. *)
Theorem pass_without_database (w : World) :
  outcome _ensure_authenticated w = Ok true →
  db_reachable (db_module w) = false ∨ db_buckets (db_module w) = None →
  (∃ msg,
     outcome sync_all_buckets w
     = Ok (mkSyncResult false 0 0 ["Synchronization failed: " +:+ msg]
             (now (exec _ensure_authenticated w)))
     ∧ (msg = "Failed to connect to database: " +:+ db_error (db_module w)
        ∨ msg = "Error getting buckets: " +:+ db_error (db_module w)))
  ∧ _sync_stats (exec sync_all_buckets w) = _sync_stats w
  ∧ sync_state_manager (exec sync_all_buckets w) = sync_state_manager w
  ∧ transmitted (exec sync_all_buckets w) = transmitted w.
Proof.
  intros Hauth Hdb. pose proof (sync_all_buckets_cases w) as H.
  rewrite Hauth in H. simpl in H.
  assert (Hw1 : _sync_stats (exec _ensure_authenticated w) = _sync_stats w
                ∧ sync_state_manager (exec _ensure_authenticated w)
                  = sync_state_manager w
                ∧ transmitted (exec _ensure_authenticated w) = transmitted w).
  { pose proof (ensure_authenticated_cases w) as Ha. unfold exec.
    destruct (is_authenticated (oauth_manager w));
      destruct (api_client w);
      destruct (stored_access_token w); by rewrite Ha. }
  destruct Hw1 as (Hs & Hm & Ht).
  destruct (db_reachable (db_module w)) eqn:Hr.
  - destruct Hdb as [Hdb|Hdb]; [done|]. rewrite Hdb in H.
    assert (Hout : outcome sync_all_buckets w = (_, _).1) by (by rewrite <- H).
    assert (Hex : exec sync_all_buckets w = (_, _).2) by (by rewrite <- H).
    rewrite Hout, Hex. simpl.
    split; [exists ("Error getting buckets: " +:+ db_error (db_module w));
            by split; [|right]|].
    by repeat split.
  - assert (Hout : outcome sync_all_buckets w = (_, _).1) by (by rewrite <- H).
    assert (Hex : exec sync_all_buckets w = (_, _).2) by (by rewrite <- H).
    rewrite Hout, Hex. simpl.
    split; [exists ("Failed to connect to database: "
                    +:+ db_error (db_module w));
            by split; [|left]|].
    by repeat split.
Qed.

Lemma pass_without_database_witness :
  outcome _ensure_authenticated offline_world = Ok true
  ∧ (db_reachable (db_module offline_world) = false
     ∨ db_buckets (db_module offline_world) = None)
  ∧ _sync_stats (exec sync_all_buckets offline_world)
    = _sync_stats offline_world.
Proof.
  assert (Ha : outcome _ensure_authenticated offline_world = Ok true)
    by reflexivity.
  assert (Hd : db_reachable (db_module offline_world) = false
               ∨ db_buckets (db_module offline_world) = None)
    by (left; reflexivity).
  split; [exact Ha|]. split; [exact Hd|].
  exact (proj1 (proj2 (pass_without_database offline_world Ha Hd))).
Defined.

Lemma update_sync_stats_consistent ok n w :
  stats_consistent (_sync_stats w) →
  stats_consistent (_sync_stats (exec (_update_sync_stats ok n) w)).
Proof. unfold stats_consistent. destruct ok; simpl; lia. Qed.

(** X15: the counters of the statistics add up after every pass:
    [total_syncs] stays the sum of [successful_syncs] and [failed_syncs]
    and never decreases.  When the pass reaches the loop over the buckets
    it is counted once: as a success, with the events of the pass added
    to [total_events_synced], when no bucket failed; as a failure
    otherwise, and then [total_events_synced] is left as it was, although
    the result reports in [events_synced] what the other buckets sent. *)
Theorem pass_statistics (w : World) :
  stats_consistent (_sync_stats w) →
  stats_consistent (_sync_stats (exec sync_all_buckets w))
  ∧ SyncStats.total_syncs (_sync_stats w)
    ≤ SyncStats.total_syncs (_sync_stats (exec sync_all_buckets w))
  ∧ (outcome _ensure_authenticated w = Ok true →
     db_reachable (db_module w) = true →
     is_Some (db_buckets (db_module w)) →
     ∃ r,
       outcome sync_all_buckets w = Ok r
       ∧ SyncStats.total_syncs (_sync_stats (exec sync_all_buckets w))
         = SyncStats.total_syncs (_sync_stats w) + 1
       ∧ if success r
         then errors r = []
              ∧ SyncStats.successful_syncs
                  (_sync_stats (exec sync_all_buckets w))
                = SyncStats.successful_syncs (_sync_stats w) + 1
              ∧ SyncStats.total_events_synced
                  (_sync_stats (exec sync_all_buckets w))
                = SyncStats.total_events_synced (_sync_stats w)
                  + events_synced r
         else errors r ≠ []
              ∧ SyncStats.failed_syncs
                  (_sync_stats (exec sync_all_buckets w))
                = SyncStats.failed_syncs (_sync_stats w) + 1
              ∧ SyncStats.total_events_synced
                  (_sync_stats (exec sync_all_buckets w))
                = SyncStats.total_events_synced (_sync_stats w)).
Proof.
  intros Hcons. pose proof (sync_all_buckets_cases w) as H.
  assert (Hw1 : _sync_stats (exec _ensure_authenticated w) = _sync_stats w).
  { pose proof (ensure_authenticated_cases w) as Ha. unfold exec.
    destruct (is_authenticated (oauth_manager w));
      destruct (api_client w);
      destruct (stored_access_token w); by rewrite Ha. }
  assert (Hfull :
    ∀ buckets, outcome _ensure_authenticated w = Ok true →
      db_reachable (db_module w) = true →
      db_buckets (db_module w) = Some buckets →
      ∃ acc w2,
        _sync_stats w2 = _sync_stats w
        ∧ sync_all_buckets w
          = (Ok (mkSyncResult
                   (bool_decide (length (pass_errors acc) = 0%nat))
                   (pass_events acc) (pass_buckets acc) (pass_errors acc)
                   (now (exec (_update_sync_stats
                                 (bool_decide
                                    (length (pass_errors acc) = 0%nat))
                                 (pass_events acc))
                              (disconnect w2)))),
             tick (exec (_update_sync_stats
                           (bool_decide (length (pass_errors acc) = 0%nat))
                           (pass_events acc))
                        (disconnect w2)))).
  { intros buckets Ha Hr Hb. rewrite Ha, Hr, Hb in H. simpl in H.
    destruct H as (acc & w2 & Hloop & Hrun). exists acc, w2.
    split; [|done].
    pose proof (sync_buckets_services buckets (mkPass [] 0 0)
                  (set_connection true (exec _ensure_authenticated w)))
      as Hsv.
    unfold exec at 2 in Hsv. rewrite Hloop in Hsv. simpl in Hsv.
    destruct Hsv as (_ & _ & _ & _ & Hst & _). simpl in Hst.
    by rewrite <- Hst. }
  assert (Hall : stats_consistent (_sync_stats (exec sync_all_buckets w))
                 ∧ SyncStats.total_syncs (_sync_stats w)
                   ≤ SyncStats.total_syncs
                       (_sync_stats (exec sync_all_buckets w))).
  { change (exec sync_all_buckets w) with (sync_all_buckets w).2.
    destruct (outcome _ensure_authenticated w) as [[|]|e] eqn:Ha;
      try (rewrite H; simpl; split; [done|lia]).
    simpl in H.
    destruct (db_reachable (db_module w)) eqn:Hr.
    - destruct (db_buckets (db_module w)) as [buckets|] eqn:Hb.
      + destruct (Hfull buckets eq_refl eq_refl eq_refl)
          as (acc & w2 & Hst & Hrun).
        rewrite Hrun. simpl. unfold stats_consistent in *.
        destruct (bool_decide (length (pass_errors acc) = 0%nat)); simpl;
          rewrite Hst; lia.
      + rewrite H. simpl. rewrite Hw1. split; [done|lia].
    - rewrite H. simpl. rewrite Hw1. split; [done|lia]. }
  split; [apply Hall|]. split; [apply Hall|].
  intros Ha Hr [buckets Hb].
  destruct (Hfull buckets Ha Hr Hb) as (acc & w2 & Hst & Hrun).
  change (exec sync_all_buckets w) with (sync_all_buckets w).2.
  change (outcome sync_all_buckets w) with (sync_all_buckets w).1.
  eexists. rewrite Hrun. simpl.
  split; [reflexivity|].
  destruct (bool_decide (length (pass_errors acc) = 0%nat)) eqn:Hok; simpl;
    rewrite Hst.
  - apply bool_decide_eq_true in Hok. apply length_zero_iff_nil in Hok.
    by repeat split.
  - apply bool_decide_eq_false in Hok.
    split; [done|]. split; [|done]. intros Hnil. apply Hok.
    by rewrite Hnil.
Qed.

Lemma pass_statistics_witness :
  stats_consistent (_sync_stats fresh_world)
  ∧ stats_consistent (_sync_stats (exec sync_all_buckets fresh_world)).
Proof.
  assert (H : stats_consistent (_sync_stats fresh_world)) by reflexivity.
  split; [exact H|].
  exact (proj1 (pass_statistics fresh_world H)).
Defined.

(** X16: nothing in [_sync_bucket] looks at the order of the events: the
    cursor goes to the id of the last event of the batch, wherever the
    largest id stands.  After a successful call the selector, run on the
    same list, returns exactly the events whose id is above that of the
    last event sent; on a list that is not in ascending order these are
    events that have just been sent. *)
Theorem resend_after_unordered_batch (b : string) (w : World) (n : Z)
    (all_events : list Event) :
  outcome (_sync_bucket b) w = Ok n →
  0 < n →
  db_events (db_module w) b = Some all_events →
  ∃ batch a,
    transmitted (exec (_sync_bucket b) w) = transmitted w ++ [batch]
    ∧ last batch = Some a
    ∧ last_synced b (exec (_sync_bucket b) w) = Some (api_id a)
    ∧ outcome (get_events_since_last_sync b all_events)
        (exec (_sync_bucket b) w)
      = Ok (filter (fun e => api_id a < default 0 (ev_id e)) all_events).
Proof.
  intros Hok Hn Hdb. unfold outcome, exec in *.
  destruct (_sync_bucket b w) as [r w'] eqn:Hrun. simpl in *. subst r.
  apply sync_bucket_spec in Hrun as [_ (evs & Hdb' & Hlen & _ & Hcase)].
  rewrite Hdb in Hdb'. simplify_eq.
  destruct (last (events_after (last_synced b w) evs)) as [e|] eqn:Hlast.
  - destruct Hcase as (batch & a & _ & Htr & _ & Hla & _ & Hcur).
    exists batch, a. split; [done|]. split; [done|]. split; [done|].
    pose proof (selector_outcome b evs w') as Hsel.
    unfold outcome in Hsel. by rewrite Hsel, Hcur.
  - apply last_None in Hlast. rewrite Hlast in Hn. simpl in Hn. lia.
Qed.

Lemma resend_after_unordered_batch_witness :
  outcome (_sync_bucket "window") newest_first_world = Ok 3
  ∧ 0 < 3
  ∧ outcome (get_events_since_last_sync "window"
               [sample_event 3; sample_event 2; sample_event 1])
      (exec (_sync_bucket "window") newest_first_world)
    = Ok [sample_event 3; sample_event 2]
  ∧ ∃ batch a,
      transmitted (exec (_sync_bucket "window") newest_first_world)
      = transmitted newest_first_world ++ [batch]
      ∧ last batch = Some a
      ∧ last_synced "window" (exec (_sync_bucket "window") newest_first_world)
        = Some (api_id a).
Proof.
  assert (Hok : outcome (_sync_bucket "window") newest_first_world = Ok 3)
    by (vm_compute; reflexivity).
  assert (Hn : 0 < 3) by lia.
  assert (Hdb : db_events (db_module newest_first_world) "window"
                = Some [sample_event 3; sample_event 2; sample_event 1])
    by reflexivity.
  split; [exact Hok|]. split; [exact Hn|].
  split; [vm_compute; reflexivity|].
  destruct (resend_after_unordered_batch "window" newest_first_world 3
              [sample_event 3; sample_event 2; sample_event 1] Hok Hn Hdb)
    as (batch & a & Ht & Hl & Hc & _).
  exists batch, a. split; [exact Ht|]. split; [exact Hl|exact Hc].
Defined.

(** * The summary *)

Lemma some_bucket_is_insert st i x (d : gmap string SyncState) :
  d !! i = None →
  (some_bucket_is st (<[i := x]> d)
   ↔ last_sync_status x = st ∨ some_bucket_is st d).
Proof.
  intros Hi. unfold some_bucket_is. split.
  - intros (b & c & Hb & Hc).
    destruct (decide (i = b)) as [->|Hne].
    + rewrite lookup_insert_eq in Hb. simplify_eq. by left.
    + rewrite lookup_insert_ne in Hb by done. right. eauto.
  - intros [Hx|(b & c & Hb & Hc)].
    + exists i, x. by rewrite lookup_insert_eq.
    + exists b, c. split; [|done].
      rewrite lookup_insert_ne; [done|]. intros ->. by rewrite Hi in Hb.
Qed.

Lemma summary_loop_invariant (d : gmap string SyncState) :
  let acc := map_fold summary_step (mkSummaryLoop ∅ 0 0 0) d in
  loop_buckets acc = bucket_summary <$> d
  ∧ 0 ≤ loop_successful acc
  ∧ 0 ≤ loop_failed acc
  ∧ loop_successful acc + loop_failed acc ≤ Z.of_nat (size d)
  ∧ (0 < loop_successful acc ↔ some_bucket_is "success" d)
  ∧ (0 < loop_failed acc ↔ some_bucket_is "failed" d).
Proof.
  simpl.
  apply (map_fold_weak_ind
           (fun acc d =>
              loop_buckets acc = bucket_summary <$> d
              ∧ 0 ≤ loop_successful acc
              ∧ 0 ≤ loop_failed acc
              ∧ loop_successful acc + loop_failed acc ≤ Z.of_nat (size d)
              ∧ (0 < loop_successful acc ↔ some_bucket_is "success" d)
              ∧ (0 < loop_failed acc ↔ some_bucket_is "failed" d))).
  - simpl. rewrite fmap_empty, map_size_empty.
    repeat split; try done; try lia.
    + intros (b & c & Hb & _). by rewrite lookup_empty in Hb.
    + intros (b & c & Hb & _). by rewrite lookup_empty in Hb.
  - intros i x m acc Hi (Hb & Hs & Hf & Hsum & Hsucc & Hfail). simpl.
    rewrite fmap_insert, Hb, (map_size_insert_None _ _ _ Hi).
    rewrite !(some_bucket_is_insert _ i x m Hi).
    split; [done|].
    destruct (String.eqb_spec (last_sync_status x) "success") as [Hx|Hx];
      [|destruct (String.eqb_spec (last_sync_status x) "failed") as [Hy|Hy]];
      (split; [lia|]); (split; [lia|]); (split; [lia|]);
      split; split; try (intros [Hbad|H]); try intros H;
      try congruence; try tauto; try lia.
Qed.

(** X17: what [get_sync_summary] reports.  Every bucket of the table
    appears with the data of its own cursor; the two counters are not
    negative and together do not exceed [total_buckets]; and
    [overall_status] depends only on whether some cursor has status
    ['success'] and whether some cursor has status ['failed']: cursors
    with status ['partial'] or ['never'] count for neither, so a table of
    such cursors is reported as ['never_synced']. *)
Theorem summary_reports (m : SyncStateManager) :
  (∀ b, Summary.buckets (get_sync_summary m) !! b
        = bucket_summary <$> _sync_states m !! b)
  ∧ Summary.total_buckets (get_sync_summary m)
    = Z.of_nat (size (_sync_states m))
  ∧ 0 ≤ Summary.successful_syncs (get_sync_summary m)
  ∧ 0 ≤ Summary.failed_syncs (get_sync_summary m)
  ∧ Summary.successful_syncs (get_sync_summary m)
    + Summary.failed_syncs (get_sync_summary m)
    ≤ Summary.total_buckets (get_sync_summary m)
  ∧ (Summary.overall_status (get_sync_summary m) = "healthy"
     ↔ some_bucket_is "success" (_sync_states m)
       ∧ ¬ some_bucket_is "failed" (_sync_states m))
  ∧ (Summary.overall_status (get_sync_summary m) = "partial"
     ↔ some_bucket_is "success" (_sync_states m)
       ∧ some_bucket_is "failed" (_sync_states m))
  ∧ (Summary.overall_status (get_sync_summary m) = "failed"
     ↔ ¬ some_bucket_is "success" (_sync_states m)
       ∧ some_bucket_is "failed" (_sync_states m))
  ∧ (Summary.overall_status (get_sync_summary m) = "never_synced"
     ↔ ¬ some_bucket_is "success" (_sync_states m)
       ∧ ¬ some_bucket_is "failed" (_sync_states m)).
Proof.
  destruct (summary_loop_invariant (_sync_states m))
    as (Hb & Hs & Hf & Hsum & Hsucc & Hfail).
  unfold get_sync_summary. simpl in *.
  set (acc := map_fold summary_step (mkSummaryLoop ∅ 0 0 0) (_sync_states m))
    in *.
  split; [intros b; by rewrite Hb, lookup_fmap|].
  split; [done|]. split; [done|]. split; [done|]. split; [done|].
  rewrite <- Hsucc, <- Hfail.
  destruct (Z.eqb_spec (loop_failed acc) 0) as [Hf0|Hf0];
    destruct (Z.ltb_spec 0 (loop_successful acc)) as [Hs0|Hs0];
    destruct (Z.ltb_spec 0 (loop_failed acc)) as [Hf1|Hf1];
    simpl; try lia;
    (split; [|split; [|split]]);
    (split; intros Hyp; try discriminate Hyp; try lia; try done).
Qed.

Lemma summary_step_comm j1 j2 z1 z2 acc :
  j1 ≠ j2 →
  summary_step j1 z1 (summary_step j2 z2 acc)
  = summary_step j2 z2 (summary_step j1 z1 acc).
Proof.
  intros Hne. unfold summary_step. simpl. f_equal.
  - by apply insert_insert_ne.
  - lia.
  - destruct (String.eqb (last_sync_status z1) "success"),
      (String.eqb (last_sync_status z2) "success"); lia.
  - destruct (String.eqb (last_sync_status z1) "success"),
      (String.eqb (last_sync_status z2) "success"),
      (String.eqb (last_sync_status z1) "failed"),
      (String.eqb (last_sync_status z2) "failed"); lia.
Qed.

Lemma summary_total_insert (d : gmap string SyncState) b s :
  loop_total (map_fold summary_step (mkSummaryLoop ∅ 0 0 0) (<[b := s]> d))
  = loop_total (map_fold summary_step (mkSummaryLoop ∅ 0 0 0) d)
    - default 0 (total_events_synced <$> d !! b)
    + total_events_synced s.
Proof.
  assert (Hfresh : ∀ d' : gmap string SyncState, d' !! b = None →
            map_fold summary_step (mkSummaryLoop ∅ 0 0 0) (<[b := s]> d')
            = summary_step b s
                (map_fold summary_step (mkSummaryLoop ∅ 0 0 0) d')).
  { intros d' Hd. apply map_fold_insert_L; [|done].
    intros. by apply summary_step_comm. }
  destruct (d !! b) as [c|] eqn:Hb; simpl.
  - rewrite <- (insert_delete_eq d b s).
    rewrite (Hfresh (delete b d)) by apply lookup_delete_eq.
    rewrite (map_fold_delete_L summary_step _ b c d); [|
      intros; by apply summary_step_comm|done].
    simpl. lia.
  - rewrite (Hfresh d Hb). simpl. lia.
Qed.

Lemma states_after_insert (w w' : World) b s :
  cursor b w' = Some s →
  (∀ b', b' ≠ b → cursor b' w' = cursor b' w) →
  states w' = <[b := s]> (states w).
Proof.
  intros Hc Ho. apply map_eq. intros b'.
  destruct (decide (b' = b)) as [->|Hne].
  - by rewrite lookup_insert_eq.
  - rewrite lookup_insert_ne by done. by apply Ho.
Qed.

(** X18: the total of the summary follows what is recorded: after
    [update_sync_success] with a count [n] the summary's
    [total_events_synced] is larger by exactly [n], whether or not the
    bucket had a cursor; after [update_sync_failure] it is larger by [n]
    when [n] is positive and unchanged otherwise. *)
Theorem summary_total_follows_updates (b : string) (w : World) :
  (∀ ts k n,
     Summary.total_events_synced
       (get_sync_summary
          (sync_state_manager (exec (update_sync_success b ts k n) w)))
     = Summary.total_events_synced (get_sync_summary (sync_state_manager w))
       + n)
  ∧ (∀ msg n,
       Summary.total_events_synced
         (get_sync_summary
            (sync_state_manager (exec (update_sync_failure b msg n) w)))
       = Summary.total_events_synced (get_sync_summary (sync_state_manager w))
         + Z.max 0 n).
Proof.
  split.
  - intros ts k n.
    destruct (update_sync_success_spec b ts k n w)
      as (stamp & _ & Hc & Ho & _).
    pose proof (states_after_insert w _ b _ Hc Ho) as Hst.
    unfold get_sync_summary. simpl. unfold states in Hst. rewrite Hst.
    rewrite summary_total_insert. simpl.
    pose proof (cursor_or_new_total b w) as Ht.
    unfold total_synced, cursor, states in Ht. lia.
  - intros msg n.
    destruct (update_sync_failure_spec b msg n w)
      as (stamp & _ & Hc & Ho & _).
    pose proof (states_after_insert w _ b _ Hc Ho) as Hst.
    unfold get_sync_summary. simpl. unfold states in Hst. rewrite Hst.
    rewrite summary_total_insert. simpl.
    pose proof (cursor_or_new_total b w) as Ht.
    unfold total_synced, cursor, states in Ht.
    destruct (Z.ltb_spec 0 n); lia.
Qed.

(** The summary of the table after the pass over [fresh_world]: one
    bucket synced, one failed. *)
Example scenario_summary :
  Summary.total_buckets (get_sync_summary (sync_state_manager synced_world))
  = 2
  ∧ Summary.total_events_synced
      (get_sync_summary (sync_state_manager synced_world)) = 3
  ∧ Summary.successful_syncs
      (get_sync_summary (sync_state_manager synced_world)) = 1
  ∧ Summary.failed_syncs
      (get_sync_summary (sync_state_manager synced_world)) = 1
  ∧ Summary.overall_status
      (get_sync_summary (sync_state_manager synced_world)) = "partial"
  ∧ Summary.overall_status
      (get_sync_summary (sync_state_manager fresh_world)) = "never_synced".
Proof. repeat split; vm_compute; reflexivity. Qed.
